(** * uni2-match-parser: the frame scan of [uni2-parser.py]

    A shallow embedding of the scan loop of [src/uni2-parser.py] (the
    "Find match start timestamps" block of [__main__]), of the inline
    nearest-neighbour character lookup and of the loading of the reference
    hashes, with the properties of the scan that the specification states;
    then of [format_timestamp], [format_title], the text of the matches
    file and the file names of the debug hooks, with further properties of
    the scan and of what is written from its output.

    Modelling conventions.
    - Timestamps and durations are exact rationals ([Q]) in the main
      development.  The dataclass declares [vs_sec] and [round_start_sec]
      as [int]; the frame source hands out fractions of a second, and the
      loop only adds, subtracts and compares them with 0.25, 10.0 and
      20.0.  Where a property depends on how these sums and differences
      round, the loop is taken a second time over binary64 numbers
      ([Binary64]).
    - PIL and imagehash are external libraries: cropping, [dhash] and the
      subtraction of two hashes are the methods of the class [Imaging].
      A hash difference is a count ([nat]).
    - A Python dict is an association list in insertion order, which is the
      order of [.items()].  Keys are byte strings compared byte by byte,
      which is the code-point order of Python on UTF-8 text.
    - [sorted(...)[0]] on an empty list raises IndexError, which aborts the
      scan: [step] and [run] return [option].
    - The debug hooks print and save image files.  [step] and [run] are
      the loop without [--debug-dir]; [step_debug] and [run_debug] are the
      loop with the two hook calls, each of which can raise. *)

From Stdlib Require Import List Bool Arith Lia ZArith QArith Lqa.
From Stdlib Require Import Ascii String Permutation.
From Stdlib Require Import DecimalString DecimalZ Qround.
From Stdlib Require Floats.
Import ListNotations.

Local Open Scope Q_scope.

(** ** Constants of the module *)

Definition SEEK_SECS : Q := 1 # 4.
Definition SKIP_SECS : Q := 10.
Definition ROUND_START_MAX_OFFSET_SECS : Q := 20.

Definition Box : Type := list Z.

Definition VS_IMAGE_BOX : Box := [97; 26; 97 + 20; 26 + 93]%Z.
Definition CLAUSE_IMAGE_BOX : Box := [80; 16; 80 + 54; 16 + 113]%Z.
Definition CHAR_LEFT_IMAGE_BOX : Box := [19; 16; 19 + 61; 16 + 84]%Z.
Definition CHAR_RIGHT_IMAGE_BOX : Box := [134; 16; 134 + 61; 16 + 84]%Z.

Definition VS_IMAGE_HASH_THRESHOLD : nat := 10.
Definition CLAUSE_IMAGE_HASH_THRESHOLD : nat := 20.
(* Defined by the module and read nowhere. *)
Definition CHAR_IMAGE_HASH_THRESHOLD : nat := 10.

(** ** Python primitives used by the loop *)

(* [a < b] on numbers. *)
Definition Qltb (a b : Q) : bool := negb (Qle_bool b a).

(* [max(a, b)]: the later argument replaces the earlier one only when it is
   strictly greater. *)
Definition py_max (a b : Q) : Q := if Qltb a b then b else a.

(* [(d1, k1) < (d2, k2)] on (int, str) tuples: the first differing
   component decides. *)
Definition tuple_lt (a b : nat * string) : bool :=
  (fst a <? fst b)%nat || ((fst a =? fst b)%nat && String.ltb (snd a) (snd b)).

(* One insertion step of a stable sort that only uses [<]. *)
Fixpoint insert_sorted (x : nat * string) (l : list (nat * string))
  : list (nat * string) :=
  match l with
  | [] => [x]
  | y :: l' => if tuple_lt y x then y :: insert_sorted x l' else x :: y :: l'
  end.

(* [sorted(l)] on a list of (int, str) tuples. *)
Fixpoint sorted (l : list (nat * string)) : list (nat * string) :=
  match l with
  | [] => []
  | x :: l' => insert_sorted x (sorted l')
  end.

(* [l[-1].field = v]: in-place update of the last element of a list of
   objects. *)
Fixpoint update_last {A : Type} (f : A -> A) (l : list A) : list A :=
  match l with
  | [] => []
  | [x] => [f x]
  | x :: l' => x :: update_last f l'
  end.

(* Truthiness of a list. *)
Definition truthy {A : Type} (l : list A) : bool :=
  match l with [] => false | _ :: _ => true end.

(** ** The imaging libraries *)

Class Imaging : Type := {
  ClipFrame : Type;
  Image : Type;
  ImageHash : Type;
  clip_frame_to_image : ClipFrame -> Image;
  crop : Image -> Box -> Image;
  dhash : Image -> ImageHash;
  hash_sub : ImageHash -> ImageHash -> nat
}.

Section Scan.

Context `{IM : Imaging}.

(** ** Data model *)

Record PotentialMatch : Type := mkPotentialMatch {
  vs_sec : Q;
  vs_clip_frame_img : Image;
  left_char_key : string;
  right_char_key : string;
  left_hash_diff : nat;
  right_hash_diff : nat;
  round_start_sec : option Q;
  clause_hash_diff : option nat
}.

Record Catalog : Type := mkCatalog {
  VS_IMAGE_HASH : ImageHash;
  CLAUSE_IMAGE_HASH : ImageHash;
  CHAR_LEFT_HASHES : list (string * ImageHash);
  CHAR_RIGHT_HASHES : list (string * ImageHash)
}.

(* The four loop variables. *)
Record ScanState : Type := mkScanState {
  next_sec : Q;
  last_vs_sec : Q;
  vs_clip_frame_imgs : list Image;
  potential_matches : list PotentialMatch
}.

Definition Frame : Type := (Q * ClipFrame)%type.

Definition initial_state : ScanState :=
  {| next_sec := 0; last_vs_sec := 0;
     vs_clip_frame_imgs := []; potential_matches := [] |}.

(** ** Character lookup *)

(* [[(dhash(img) - char_hash, char_key) for char_key, char_hash in
     roster.items()]] *)
Definition hash_diffs (img : Image) (roster : list (string * ImageHash))
  : list (nat * string) :=
  map (fun kh => (hash_sub (dhash img) (snd kh), fst kh)) roster.

(* [sorted([...])[0]]; [None] is the IndexError of [[0]] on an empty
   list. *)
Definition classify (img : Image) (roster : list (string * ImageHash))
  : option (nat * string) :=
  hd_error (sorted (hash_diffs img roster)).

(** ** One iteration of the loop *)

Inductive Branch : Type :=
| RoundStartCheck
| VsCollection
| BurstClosure
| Idle.

Definition vs_img_hash_diff (cat : Catalog) (img : Image) : nat :=
  hash_sub (dhash (crop img VS_IMAGE_BOX)) (VS_IMAGE_HASH cat).

Definition clause_img_hash_diff (cat : Catalog) (img : Image) : nat :=
  hash_sub (dhash (crop img CLAUSE_IMAGE_BOX)) (CLAUSE_IMAGE_HASH cat).

(* The guards of the [if]/[elif]/[elif]/[else] chain, in program order. *)
Definition select_branch (cat : Catalog) (st : ScanState) (sec : Q)
    (img : Image) : Branch :=
  if Qltb (sec - last_vs_sec st) ROUND_START_MAX_OFFSET_SECS
     && truthy (potential_matches st)
  then RoundStartCheck
  else if (vs_img_hash_diff cat img <? VS_IMAGE_HASH_THRESHOLD)%nat
  then VsCollection
  else if truthy (vs_clip_frame_imgs st)
  then BurstClosure
  else Idle.

Definition set_round_start (sec : Q) (diff : nat) (m : PotentialMatch)
  : PotentialMatch :=
  {| vs_sec := vs_sec m;
     vs_clip_frame_img := vs_clip_frame_img m;
     left_char_key := left_char_key m;
     right_char_key := right_char_key m;
     left_hash_diff := left_hash_diff m;
     right_hash_diff := right_hash_diff m;
     round_start_sec := Some sec;
     clause_hash_diff := Some diff |}.

Definition with_next_sec (st : ScanState) (t : Q) : ScanState :=
  {| next_sec := t;
     last_vs_sec := last_vs_sec st;
     vs_clip_frame_imgs := vs_clip_frame_imgs st;
     potential_matches := potential_matches st |}.

(* The body of the first branch. *)
Definition round_start_check (cat : Catalog) (st : ScanState) (sec : Q)
    (img : Image) : ScanState :=
  let d := clause_img_hash_diff cat img in
  if (d <? CLAUSE_IMAGE_HASH_THRESHOLD)%nat then
    {| next_sec := py_max (last_vs_sec st + ROUND_START_MAX_OFFSET_SECS)
                          (sec + SKIP_SECS);
       last_vs_sec := last_vs_sec st;
       vs_clip_frame_imgs := vs_clip_frame_imgs st;
       potential_matches :=
         update_last (set_round_start sec d) (potential_matches st) |}
  else with_next_sec st (sec + SEEK_SECS).

(* The body of the second branch. *)
Definition vs_collection (st : ScanState) (sec : Q) (img : Image)
  : ScanState :=
  {| next_sec := sec + SEEK_SECS;
     last_vs_sec := last_vs_sec st;
     vs_clip_frame_imgs := vs_clip_frame_imgs st ++ [img];
     potential_matches := potential_matches st |}.

(* The body of the third branch; [None] when an index is out of range. *)
Definition burst_closure (cat : Catalog) (st : ScanState) (sec : Q)
  : option ScanState :=
  let imgs := vs_clip_frame_imgs st in
  match nth_error imgs (List.length imgs / 2) with
  | None => None
  | Some vs_img =>
      match classify (crop vs_img CHAR_LEFT_IMAGE_BOX) (CHAR_LEFT_HASHES cat),
            classify (crop vs_img CHAR_RIGHT_IMAGE_BOX) (CHAR_RIGHT_HASHES cat)
      with
      | Some (ld, lk), Some (rd, rk) =>
          Some {| next_sec := sec + SEEK_SECS;
                  last_vs_sec := sec;
                  vs_clip_frame_imgs := [];
                  potential_matches :=
                    potential_matches st ++
                    [ {| vs_sec := sec;
                         vs_clip_frame_img := vs_img;
                         left_char_key := lk;
                         right_char_key := rk;
                         left_hash_diff := ld;
                         right_hash_diff := rd;
                         round_start_sec := None;
                         clause_hash_diff := None |} ] |}
      | _, _ => None
      end
  end.

(* What an examined frame does. *)
Definition examine (cat : Catalog) (st : ScanState) (sec : Q) (img : Image)
  : option ScanState :=
  match select_branch cat st sec img with
  | RoundStartCheck => Some (round_start_check cat st sec img)
  | VsCollection => Some (vs_collection st sec img)
  | BurstClosure => burst_closure cat st sec
  | Idle => Some (with_next_sec st (sec + SEEK_SECS))
  end.

(* The loop body: [if sec < next_sec: continue], else examine the frame. *)
Definition step (cat : Catalog) (st : ScanState) (fr : Frame)
  : option ScanState :=
  let (sec, clip_frame) := fr in
  if Qltb sec (next_sec st) then Some st
  else examine cat st sec (clip_frame_to_image clip_frame).

(* The [for] loop over [clip.iter_frames(with_times=True)]. *)
Fixpoint run (cat : Catalog) (st : ScanState) (frames : list Frame)
  : option ScanState :=
  match frames with
  | [] => Some st
  | fr :: frames' =>
      match step cat st fr with
      | None => None
      | Some st' => run cat st' frames'
      end
  end.

(* The value of [potential_matches] when the loop ends. *)
Definition scan (cat : Catalog) (frames : list Frame)
  : option (list PotentialMatch) :=
  option_map potential_matches (run cat initial_state frames).

End Scan.

(** ** Loading the reference catalog

    The module computes its reference hashes when it is loaded, from the
    files under [data/].  The files are not part of the source: a
    [DataDir] gives the two marker images and the listing of
    [data/chars], as (file name, image) pairs in the order in which
    [os.listdir] enumerates them. *)

Definition dot : ascii := "."%char.

(* [l] begins with [p]. *)
Fixpoint starts_with (p l : list ascii) : bool :=
  match p, l with
  | [], _ => true
  | _ :: _, [] => false
  | a :: p', b :: l' => Ascii.eqb a b && starts_with p' l'
  end.

(* [s.endswith(suffix)] *)
Definition endswith (s suffix : string) : bool :=
  starts_with (rev (list_ascii_of_string suffix))
              (rev (list_ascii_of_string s)).

(* [p.rfind(".")] *)
Fixpoint rfind_dot (cs : list ascii) : option nat :=
  match cs with
  | [] => None
  | c :: cs' =>
      match rfind_dot cs' with
      | Some i => Some (S i)
      | None => if Ascii.eqb c dot then Some 0%nat else None
      end
  end.

(* [os.path.splitext(p)[0]] for a name without directory separators: the
   name is cut at its last dot, unless only dots come before that dot. *)
Definition splitext_root (p : string) : string :=
  let cs := list_ascii_of_string p in
  match rfind_dot cs with
  | None => p
  | Some dotIndex =>
      if forallb (fun c => Ascii.eqb c dot) (firstn dotIndex cs) then p
      else string_of_list_ascii (firstn dotIndex cs)
  end.

(* [d[k] = v] on a dict: an existing key keeps its place and gets the new
   value, a new key goes to the end. *)
Definition dict_set {V : Type} (d : list (string * V)) (k : string) (v : V)
  : list (string * V) :=
  if existsb (fun kv => String.eqb (fst kv) k) d
  then map (fun kv => if String.eqb (fst kv) k then (fst kv, v) else kv) d
  else d ++ [(k, v)].

Section Loading.

Context `{IM : Imaging}.

Record DataDir : Type := mkDataDir {
  vs_png : Image;
  clause_png : Image;
  chars : list (string * Image)
}.

(* One iteration of the loop of [load_char_hashes]. *)
Definition load_char_hash (filename_suffix : string) (box : Box)
    (char_hashes : list (string * ImageHash)) (file : string * Image)
  : list (string * ImageHash) :=
  let (filename, img) := file in
  if endswith filename filename_suffix
  then dict_set char_hashes (splitext_root filename) (dhash (crop img box))
  else char_hashes.

Definition load_char_hashes (listing : list (string * Image))
    (suffix : string) : list (string * ImageHash) :=
  let filename_suffix := (suffix ++ ".png")%string in
  let box := if String.eqb suffix "-left" then CHAR_LEFT_IMAGE_BOX
             else CHAR_RIGHT_IMAGE_BOX in
  fold_left (load_char_hash filename_suffix box) listing [].

(* The files the loop of [load_char_hashes] selects, and the roster entry
   each of them contributes. *)
Definition selected (filename_suffix : string) (file : string * Image)
  : bool :=
  endswith (fst file) filename_suffix.

Definition roster_entry (box : Box) (file : string * Image)
  : string * ImageHash :=
  (splitext_root (fst file), dhash (crop (snd file) box)).

(* The module-level assignments of the reference hashes. *)
Definition load_catalog (data : DataDir) : Catalog :=
  {| VS_IMAGE_HASH := dhash (crop (vs_png data) VS_IMAGE_BOX);
     CLAUSE_IMAGE_HASH := dhash (crop (clause_png data) CLAUSE_IMAGE_BOX);
     CHAR_LEFT_HASHES := load_char_hashes (chars data) "-left";
     CHAR_RIGHT_HASHES := load_char_hashes (chars data) "-right" |}.

End Loading.

(** ** Vocabulary of the properties *)

(* [x] is no greater than any element of [l]. *)
Definition lower_bound (x : nat * string) (l : list (nat * string)) : Prop :=
  forall y, In y l -> tuple_lt y x = false.

Section Vocabulary.

Context `{IM : Imaging}.

(* The guard of the round-start branch. *)
Definition round_start_applies (st : ScanState) (sec : Q) : Prop :=
  potential_matches st <> [] /\
  sec - last_vs_sec st < ROUND_START_MAX_OFFSET_SECS.

(* The guard of the VS branch. *)
Definition vs_marker (cat : Catalog) (img : Image) : Prop :=
  (vs_img_hash_diff cat img < VS_IMAGE_HASH_THRESHOLD)%nat.

(* The guard of the closure branch. *)
Definition burst_pending (st : ScanState) : Prop :=
  vs_clip_frame_imgs st <> [].

(* The round-start marker is on screen. *)
Definition clause_marker (cat : Catalog) (img : Image) : Prop :=
  (clause_img_hash_diff cat img < CLAUSE_IMAGE_HASH_THRESHOLD)%nat.

(* A frame that shows neither marker. *)
Definition non_marker (cat : Catalog) (fr : Frame) : Prop :=
  ~ vs_marker cat (clip_frame_to_image (snd fr)) /\
  ~ clause_marker cat (clip_frame_to_image (snd fr)).

(* The frame is not skipped by [if sec < next_sec: continue]. *)
Definition examined (st : ScanState) (sec : Q) : Prop := next_sec st <= sec.

(* The two optional fields are set together. *)
Definition both_or_neither (m : PotentialMatch) : Prop :=
  (exists r d, round_start_sec m = Some r /\ clause_hash_diff m = Some d) \/
  (round_start_sec m = None /\ clause_hash_diff m = None).

(* A recorded round start lies in the window opened by the match's own VS
   screen. *)
Definition round_start_in_window (m : PotentialMatch) : Prop :=
  match round_start_sec m with
  | None => True
  | Some r => vs_sec m <= r /\ r - vs_sec m < ROUND_START_MAX_OFFSET_SECS
  end.

(* How the cursor relates to the most recently appended match. *)
Definition cursor_tracks_last (st : ScanState) : Prop :=
  forall ms m,
    potential_matches st = ms ++ [m] ->
    last_vs_sec st = vs_sec m /\
    vs_sec m <= next_sec st /\
    (round_start_sec m <> None ->
     last_vs_sec st + ROUND_START_MAX_OFFSET_SECS <= next_sec st).

Definition scan_inv (st : ScanState) : Prop :=
  Forall both_or_neither (potential_matches st) /\
  Forall round_start_in_window (potential_matches st) /\
  cursor_tracks_last st.

(* The states the loop can be in. *)
Definition reachable (cat : Catalog) (st : ScanState) : Prop :=
  exists frames, run cat initial_state frames = Some st.

(* Two catalogs that differ only in the order of their roster entries. *)
Definition same_up_to_roster_order (cat cat' : Catalog) : Prop :=
  VS_IMAGE_HASH cat = VS_IMAGE_HASH cat' /\
  CLAUSE_IMAGE_HASH cat = CLAUSE_IMAGE_HASH cat' /\
  Permutation (CHAR_LEFT_HASHES cat) (CHAR_LEFT_HASHES cat') /\
  Permutation (CHAR_RIGHT_HASHES cat) (CHAR_RIGHT_HASHES cat').

End Vocabulary.

(** ** A synthetic imaging model for the scenarios

    A synthetic frame is given by the fingerprints of its four regions; a
    fingerprint is an 8x8 bit array, flattened, and the difference of two
    fingerprints is the number of positions where they differ. *)

Inductive SynImage : Type :=
| SynFrame (vs clause lchar rchar : list bool)
| SynRegion (bits : list bool).

Definition box_eqb (a b : Box) : bool :=
  if list_eq_dec Z.eq_dec a b then true else false.

Definition syn_crop (img : SynImage) (box : Box) : SynImage :=
  match img with
  | SynFrame vs clause lchar rchar =>
      if box_eqb box VS_IMAGE_BOX then SynRegion vs
      else if box_eqb box CLAUSE_IMAGE_BOX then SynRegion clause
      else if box_eqb box CHAR_LEFT_IMAGE_BOX then SynRegion lchar
      else SynRegion rchar
  | SynRegion bits => SynRegion bits
  end.

Definition syn_dhash (img : SynImage) : list bool :=
  match img with
  | SynFrame vs _ _ _ => vs
  | SynRegion bits => bits
  end.

Fixpoint hamming (a b : list bool) : nat :=
  match a, b with
  | x :: a', y :: b' => (if Bool.eqb x y then 0 else 1) + hamming a' b'
  | _, _ => 0
  end.

Definition SynImaging : Imaging :=
  {| ClipFrame := SynImage;
     Image := SynImage;
     ImageHash := list bool;
     clip_frame_to_image := fun f => f;
     crop := syn_crop;
     dhash := syn_dhash;
     hash_sub := hamming |}.

(* The fingerprint whose first [n] bits are set. *)
Definition bits (n : nat) : list bool := repeat true n ++ repeat false (64 - n).

Definition syn_catalog : @Catalog SynImaging :=
  @mkCatalog SynImaging (bits 0) (bits 0)
    [("linne-left", bits 8); ("hyde-left", bits 8); ("seth-left", bits 40)]
      %string
    [("seth-right", bits 40); ("linne-right", bits 8); ("hyde-right", bits 8)]
      %string.

(* The same reference images, listed by the file system in another order. *)
Definition syn_catalog_reordered : @Catalog SynImaging :=
  @mkCatalog SynImaging (bits 0) (bits 0)
    [("seth-left", bits 40); ("hyde-left", bits 8); ("linne-left", bits 8)]
      %string
    [("hyde-right", bits 8); ("seth-right", bits 40); ("linne-right", bits 8)]
      %string.

(* Three frames of one VS screen, told apart by their character regions. *)
Definition vs_a : SynImage := SynFrame (bits 0) (bits 64) (bits 7) (bits 38).
Definition vs_b : SynImage := SynFrame (bits 0) (bits 64) (bits 9) (bits 41).
Definition vs_c : SynImage := SynFrame (bits 0) (bits 64) (bits 12) (bits 45).

(* Gameplay: neither marker on screen. *)
Definition plain : SynImage := SynFrame (bits 64) (bits 64) (bits 0) (bits 0).

(* The round-start marker on screen. *)
Definition clause_frame : SynImage :=
  SynFrame (bits 64) (bits 0) (bits 0) (bits 0).

(* Scenario B: a VS burst at 5.0, 5.25, 5.5, then gameplay. *)
Definition scenario_B : list (@Frame SynImaging) :=
  [(5, vs_a); (21 # 4, vs_b); (11 # 2, vs_c); (23 # 4, plain); (6, plain)].

(* The burst alone: the stream ends while the VS screen is still shown. *)
Definition scenario_B_burst_only : list (@Frame SynImaging) :=
  [(5, vs_a); (21 # 4, vs_b); (11 # 2, vs_c)].

(* The round-start marker shown from 12.0 on, sampled four times. *)
Definition clause_frames : list (@Frame SynImaging) :=
  [(12, clause_frame); (25 # 2, clause_frame); (23, clause_frame);
   (26, clause_frame)].

(* Scenario C: as B, then the round-start marker at 12.0. *)
Definition scenario_C : list (@Frame SynImaging) :=
  scenario_B ++ clause_frames.

(* The loop variables after Scenario B: one open match, the cursor at 6.25. *)
Definition state_after_B : @ScanState SynImaging :=
  @mkScanState SynImaging (25 # 4) (23 # 4) []
    [@mkPotentialMatch SynImaging (23 # 4) vs_b "hyde-left" "seth-right" 1 1
       None None].

(* The match that Scenario B leaves open. *)
Definition match_of_B : @PotentialMatch SynImaging :=
  @mkPotentialMatch SynImaging (23 # 4) vs_b "hyde-left" "seth-right" 1 1
    None None.

(* A reference icon whose two character regions have [n] bits set. *)
Definition icon (n : nat) : SynImage :=
  SynFrame (bits 0) (bits 0) (bits n) (bits n).

(* The data directory behind [syn_catalog]. *)
Definition syn_data : @DataDir SynImaging :=
  @mkDataDir SynImaging
    (SynFrame (bits 0) (bits 64) (bits 0) (bits 0))
    (SynFrame (bits 64) (bits 0) (bits 0) (bits 0))
    [("linne-left.png", icon 8); ("seth-right.png", icon 40);
     ("hyde-left.png", icon 8); ("linne-right.png", icon 8);
     ("notes.txt", icon 0); ("seth-left.png", icon 40);
     ("hyde-right.png", icon 8)]%string.

(* The same directory, enumerated in another order. *)
Definition syn_data_reordered : @DataDir SynImaging :=
  @mkDataDir SynImaging
    (SynFrame (bits 0) (bits 64) (bits 0) (bits 0))
    (SynFrame (bits 64) (bits 0) (bits 0) (bits 0))
    [("seth-left.png", icon 40); ("hyde-right.png", icon 8);
     ("hyde-left.png", icon 8); ("seth-right.png", icon 40);
     ("linne-left.png", icon 8); ("notes.txt", icon 0);
     ("linne-right.png", icon 8)]%string.

(* Scenario C followed by a second VS screen at 30.0 and 30.25, closed by
   a gameplay frame at 30.5. *)
Definition scenario_E : list (@Frame SynImaging) :=
  scenario_C ++ [(30, vs_a); (121 # 4, vs_c); (61 # 2, plain)].

(* A catalog without any left-side reference icon. *)
Definition syn_catalog_no_left : @Catalog SynImaging :=
  @mkCatalog SynImaging (bits 0) (bits 0) []
    [("seth-right", bits 40); ("linne-right", bits 8); ("hyde-right", bits 8)]
      %string.

(* The second match of [scenario_E]. *)
Definition match_of_E : @PotentialMatch SynImaging :=
  @mkPotentialMatch SynImaging (61 # 2) vs_c "hyde-left" "seth-right" 4 5
    None None.

(* Gameplay and round-start frames only. *)
Definition scenario_no_vs : list (@Frame SynImaging) :=
  [(1, plain); (2, clause_frame); (3, plain)].

(* [str.capitalize] on text of ASCII letters, digits and punctuation. *)
Definition ascii_upper (c : ascii) : ascii :=
  let n := N_of_ascii c in
  if ((97 <=? n) && (n <=? 122))%N then ascii_of_N (n - 32) else c.

Definition ascii_lower (c : ascii) : ascii :=
  let n := N_of_ascii c in
  if ((65 <=? n) && (n <=? 90))%N then ascii_of_N (n + 32) else c.

Fixpoint string_map (f : ascii -> ascii) (s : string) : string :=
  match s with
  | EmptyString => EmptyString
  | String c s' => String (f c) (string_map f s')
  end.

Definition ascii_capitalize (s : string) : string :=
  match s with
  | EmptyString => EmptyString
  | String c s' => String (ascii_upper c) (string_map ascii_lower s')
  end.

(** ** Vocabulary of the chronology of a scan *)

(* Each time is at least the window plus one seek step after the one
   before it. *)
Fixpoint spaced (ts : list Q) : Prop :=
  match ts with
  | [] => True
  | t :: rest =>
      match rest with
      | [] => True
      | t' :: _ =>
          t + ROUND_START_MAX_OFFSET_SECS + SEEK_SECS <= t' /\ spaced rest
      end
  end.

Section Chronology.

Context `{IM : Imaging}.

(* The same record up to the two optional fields. *)
Definition same_vs_screen (m m' : PotentialMatch) : Prop :=
  vs_sec m' = vs_sec m /\
  vs_clip_frame_img m' = vs_clip_frame_img m /\
  left_char_key m' = left_char_key m /\
  right_char_key m' = right_char_key m /\
  left_hash_diff m' = left_hash_diff m /\
  right_hash_diff m' = right_hash_diff m.

(* [img] is the image of a frame of [frames] that shows the VS marker and
   whose timestamp is below [t]. *)
Definition vs_frame_before (cat : Catalog) (frames : list Frame) (t : Q)
    (img : Image) : Prop :=
  exists sec cf,
    In (sec, cf) frames /\
    img = clip_frame_to_image cf /\
    vs_marker cat img /\
    sec < t.

(* The keys and distances of [m] are the lookup's answers for its own
   representative frame. *)
Definition classified (cat : Catalog) (m : PotentialMatch) : Prop :=
  classify (crop (vs_clip_frame_img m) CHAR_LEFT_IMAGE_BOX)
           (CHAR_LEFT_HASHES cat)
    = Some (left_hash_diff m, left_char_key m) /\
  classify (crop (vs_clip_frame_img m) CHAR_RIGHT_IMAGE_BOX)
           (CHAR_RIGHT_HASHES cat)
    = Some (right_hash_diff m, right_char_key m).

(* What the loop keeps true about the times it has recorded. *)
Definition chronology_inv (st : ScanState) : Prop :=
  0 <= next_sec st /\
  spaced (map vs_sec (potential_matches st)) /\
  Forall (fun m => 0 <= vs_sec m) (potential_matches st) /\
  Forall (fun m => forall r, round_start_sec m = Some r ->
                             vs_sec m + SEEK_SECS <= r)
         (potential_matches st) /\
  (forall ms m, potential_matches st = ms ++ [m] ->
                vs_sec m + SEEK_SECS <= next_sec st) /\
  (potential_matches st <> [] -> vs_clip_frame_imgs st <> [] ->
   last_vs_sec st + ROUND_START_MAX_OFFSET_SECS + SEEK_SECS <= next_sec st).

(* Where the buffered and the recorded images come from. *)
Definition provenance_inv (cat : Catalog) (frames : list Frame)
    (st : ScanState) : Prop :=
  Forall (vs_frame_before cat frames (next_sec st)) (vs_clip_frame_imgs st) /\
  Forall (fun m => vs_frame_before cat frames (vs_sec m)
                                   (vs_clip_frame_img m))
         (potential_matches st) /\
  Forall (classified cat) (potential_matches st).

End Chronology.

(** ** Labels, titles and debug file names

    [format_timestamp], [format_title] and the file names of the two debug
    hooks.  [datetime.timedelta] is given by its documented behaviour on a
    whole number of seconds: days and seconds by floor division, a range
    of 999999999 days either way, and the text "D day(s), H:MM:SS".
    [str.capitalize] depends on the case tables of Unicode; it is a
    parameter of the functions that use it. *)

(* [int(x)] on a number: the fraction is dropped, toward zero. *)
Definition py_int (x : Q) : Z := Z.quot (Qnum x) (Zpos (Qden x)).

(* [x or y] where [x] is an optional number: [None] and zero are falsy. *)
Definition or_else (x : option Q) (y : Q) : Q :=
  match x with
  | Some r => if Qeq_bool r 0 then y else r
  | None => y
  end.

(* ["%d" % n] *)
Definition str_int (n : Z) : string := NilZero.string_of_int (Z.to_int n).

(* ["%02d" % n] *)
Definition str_int2 (n : Z) : string :=
  if ((0 <=? n) && (n <? 10))%Z then ("0" ++ str_int n)%string
  else str_int n.

Definition MAX_DELTA_DAYS : Z := 999999999.

(* [str(datetime.timedelta(seconds=n))] for an int [n]; [None] is the
   OverflowError of a delta out of range. *)
Definition timedelta_str (n : Z) : option string :=
  let days := (n / 86400)%Z in
  let seconds := (n mod 86400)%Z in
  if (MAX_DELTA_DAYS <? Z.abs days)%Z then None
  else
    let minutes := (seconds / 60)%Z in
    let ss := (seconds mod 60)%Z in
    let hours := (minutes / 60)%Z in
    let mm := (minutes mod 60)%Z in
    let s := (str_int hours ++ ":" ++ str_int2 mm ++ ":" ++ str_int2 ss)
               %string in
    Some (if (days =? 0)%Z then s
          else (str_int days ++ " day"
                ++ (if (Z.abs days =? 1)%Z then "" else "s")
                ++ ", " ++ s)%string).

(* [format_timestamp(sec)] *)
Definition format_timestamp (sec : Q) : option string :=
  match timedelta_str (py_int sec) with
  | None => None
  | Some td => Some ("[" ++ td ++ "]")%string
  end.

(* [s.split("-")[0]] *)
Fixpoint split_first (s : string) : string :=
  match s with
  | EmptyString => EmptyString
  | String c s' =>
      if Ascii.eqb c "-" then EmptyString else String c (split_first s')
  end.

(* [s.replace(":", ".")] *)
Fixpoint replace_colons (s : string) : string :=
  match s with
  | EmptyString => EmptyString
  | String c s' =>
      String (if Ascii.eqb c ":" then "."%char else c) (replace_colons s')
  end.

(* "\n" *)
Definition newline : string := String (ascii_of_nat 10) EmptyString.

(* The first whole second [timedelta] cannot hold. *)
Definition TIMEDELTA_END : Z := (86400 * (MAX_DELTA_DAYS + 1))%Z.

Section Output.

Context `{IM : Imaging}.

Variable capitalize : string -> string.

(* The lambda [char_name] of [format_title]. *)
Definition char_name (s : string) : string := capitalize (split_first s).

(* [int(match.round_start_sec or match.vs_sec)]: the time a link points
   to. *)
Definition match_sec (m : PotentialMatch) : Z :=
  py_int (or_else (round_start_sec m) (vs_sec m)).

Definition format_title (m : PotentialMatch) : option string :=
  match format_timestamp (inject_Z (match_sec m)) with
  | None => None
  | Some ts =>
      Some (ts ++ " " ++ char_name (left_char_key m) ++ " vs "
            ++ char_name (right_char_key m))%string
  end.

(* The three files [run_potential_match_debug] saves: the frame and the
   two character regions. *)
Definition potential_match_debug_paths (debug_dir : string)
    (m : PotentialMatch) : option (string * string * string) :=
  match format_timestamp (vs_sec m) with
  | None => None
  | Some ts =>
      Some (replace_colons (debug_dir ++ "/" ++ ts ++ "." ++ left_char_key m
                            ++ "." ++ right_char_key m ++ ".png"),
            replace_colons (debug_dir ++ "/chars/" ++ ts ++ "-left.png"),
            replace_colons (debug_dir ++ "/chars/" ++ ts ++ "-right.png"))
           %string
  end.

(* The file [run_round_start_debug] saves. *)
Definition round_start_debug_path (debug_dir : string) (m : PotentialMatch)
  : option string :=
  match format_timestamp (vs_sec m) with
  | None => None
  | Some ts => Some (replace_colons (debug_dir ++ "/" ++ ts ++ ".png"))%string
  end.

(* One [f.write] of the loop over [potential_matches[::-1]]. *)
Definition match_item (norm_url : string) (m : PotentialMatch)
  : option string :=
  match format_title m with
  | None => None
  | Some title =>
      Some ("<li><a href=" ++ norm_url ++ "#t=" ++ str_int (match_sec m)
            ++ ">" ++ title ++ "</a></li>" ++ newline)%string
  end.

(* The text written by the loop; [None] when a write raises. *)
Fixpoint match_items (norm_url : string) (ms : list PotentialMatch)
  : option string :=
  match ms with
  | [] => Some EmptyString
  | m :: ms' =>
      match match_item norm_url m with
      | None => None
      | Some item =>
          match match_items norm_url ms' with
          | None => None
          | Some rest => Some (item ++ rest)%string
          end
      end
  end.

(* The text of the matches file, for the normalized URL [norm_url];
   [None] when a write raises. *)
Definition matches_html (norm_url : string) (ms : list PotentialMatch)
  : option string :=
  match match_items norm_url (rev ms) with
  | None => None
  | Some body => Some ("<ol reversed>" ++ newline ++ body ++ "</ol><br>")%string
  end.

(* The times of [m] are timestamps of frames of [frames]. *)
Definition times_from (frames : list Frame) (m : PotentialMatch) : Prop :=
  In (vs_sec m) (map fst frames) /\
  (forall r, round_start_sec m = Some r -> In r (map fst frames)).

End Output.

(** ** Characters of a string *)

Fixpoint string_forall (p : ascii -> bool) (s : string) : bool :=
  match s with
  | EmptyString => true
  | String c s' => p c && string_forall p s'
  end.

(* A decimal digit or the minus sign. *)
Definition number_char (c : ascii) : bool :=
  let n := N_of_ascii c in
  ((48 <=? n)%N && (n <=? 57)%N) || Ascii.eqb c "-".

(* The whole seconds of the first day, and the values of a minute or
   second field. *)
Definition first_day (n : Z) : Prop := (0 <= n < 86400)%Z.

Definition sixty : list Z := map Z.of_nat (seq 0 60).

(** ** The loop with its debug hooks

    With [--debug-dir] the loop calls [run_round_start_debug] when it has
    recorded a round start and [run_potential_match_debug] when it has
    closed a burst.  A hook formats the [vs_sec] of the match, prints, and
    saves image files under the debug directory; formatting and saving
    can raise, and an exception ends the loop.  Whether a file can be
    saved depends on the file system: [save_ok] tells it for each path.
    [print] is taken to return. *)

Inductive Raised : Type :=
| IndexError
| OverflowError
| SaveError.

Inductive Outcome (A : Type) : Type :=
| Returns (a : A)
| Raises (e : Raised).

Arguments Returns {A} a.
Arguments Raises {A} e.

Definition bind {A B : Type} (x : Outcome A) (k : A -> Outcome B)
  : Outcome B :=
  match x with
  | Returns a => k a
  | Raises e => Raises e
  end.

Notation "x <- e ;; k" := (bind e (fun x => k))
  (at level 61, e at next level, right associativity).

Notation "e ;; k" := (bind e (fun _ => k))
  (at level 61, right associativity).

(* A call that raises [e] where the model of the callee has [None]. *)
Definition of_option {A : Type} (e : Raised) (x : option A) : Outcome A :=
  match x with
  | Some a => Returns a
  | None => Raises e
  end.


Section Debug.

Context `{IM : Imaging}.

(* Whether [img.save(path)] succeeds. *)
Variable save_ok : string -> bool.

(* [args.debug_dir] *)
Variable debug_dir : option string.

(* [img.save(path)] *)
Definition save (path : string) : Outcome unit :=
  if save_ok path then Returns tt else Raises SaveError.

Definition run_potential_match_debug (dir : string) (m : PotentialMatch)
  : Outcome unit :=
  paths <- of_option OverflowError (potential_match_debug_paths dir m) ;;
  let '(frame_path, left_path, right_path) := paths in
  save frame_path ;; save left_path ;; save right_path.

Definition run_round_start_debug (dir : string) (clip_frame_img : Image)
    (m : PotentialMatch) : Outcome unit :=
  path <- of_option OverflowError (round_start_debug_path dir m) ;;
  save path.

(* [if args.debug_dir: hook(args.debug_dir, ...)]: no directory and the
   empty name are falsy. *)
Definition if_debug (hook : string -> Outcome unit) : Outcome unit :=
  match debug_dir with
  | None => Returns tt
  | Some EmptyString => Returns tt
  | Some dir => hook dir
  end.

(* [potential_matches[-1]] *)
Definition last_match (ms : list PotentialMatch) : Outcome PotentialMatch :=
  of_option IndexError (hd_error (rev ms)).

(* What an examined frame does when the hooks are in place. *)
Definition examine_debug (cat : Catalog) (st : ScanState) (sec : Q)
    (img : Image) : Outcome ScanState :=
  match select_branch cat st sec img with
  | RoundStartCheck =>
      let st' := round_start_check cat st sec img in
      if (clause_img_hash_diff cat img <? CLAUSE_IMAGE_HASH_THRESHOLD)%nat
      then
        if_debug (fun dir =>
                    m <- last_match (potential_matches st') ;;
                    run_round_start_debug dir img m) ;;
        Returns st'
      else Returns st'
  | VsCollection => Returns (vs_collection st sec img)
  | BurstClosure =>
      st' <- of_option IndexError (burst_closure cat st sec) ;;
      if_debug (fun dir =>
                  m <- last_match (potential_matches st') ;;
                  run_potential_match_debug dir m) ;;
      Returns st'
  | Idle => Returns (with_next_sec st (sec + SEEK_SECS))
  end.

Definition step_debug (cat : Catalog) (st : ScanState) (fr : Frame)
  : Outcome ScanState :=
  let (sec, clip_frame) := fr in
  if Qltb sec (next_sec st) then Returns st
  else examine_debug cat st sec (clip_frame_to_image clip_frame).

Fixpoint run_debug (cat : Catalog) (st : ScanState) (frames : list Frame)
  : Outcome ScanState :=
  match frames with
  | [] => Returns st
  | fr :: frames' =>
      st' <- step_debug cat st fr ;;
      run_debug cat st' frames'
  end.

Definition scan_debug (cat : Catalog) (frames : list Frame)
  : Outcome (list PotentialMatch) :=
  st <- run_debug cat initial_state frames ;;
  Returns (potential_matches st).





End Debug.

(* A file system on which only the paths under [dir] can be written. *)
Definition only_under (dir : string) (path : string) : bool :=
  String.prefix dir path.

(** ** The loop in binary64

    A Python [float] is an IEEE 754 binary64 number, and so are the frame
    times: the frame source hands out the time of frame [i] of a clip of
    [fps] frames per second as the double [i / fps].  This is the loop of
    [Scan] once more, with the times as binary64 numbers and [+], [-], [<]
    and [max] as the machine computes them.  The imaging side, the
    catalog and the character lookup are those of [Scan]. *)

Module Binary64.

Import (notations) PrimFloat.
Import Corelib.Floats.PrimFloat(float).

Definition SEEK_SECS : float := 0.25%float.
Definition SKIP_SECS : float := 10%float.
Definition ROUND_START_MAX_OFFSET_SECS : float := 20%float.

(* [max(a, b)] *)
Definition py_max (a b : float) : float :=
  if (a <? b)%float then b else a.

(* The rational number a double stands for; [None] for an infinity and
   for NaN. *)
Definition exact (x : float) : option Q :=
  match FloatOps.Prim2SF x with
  | SpecFloat.S754_zero _ => Some 0
  | SpecFloat.S754_finite s m e =>
      Some ((if s then inject_Z (Zneg m) else inject_Z (Zpos m))
            * Qpower 2 e)
  | SpecFloat.S754_infinity _ => None
  | SpecFloat.S754_nan => None
  end.

(* The time of frame [i] of a clip of [fps] frames per second. *)
Definition frame_time (i fps : Z) : float :=
  (PrimFloat.of_uint63 (Uint63.of_Z i)
   / PrimFloat.of_uint63 (Uint63.of_Z fps))%float.

Section Scan.

Context `{IM : Imaging}.

Record PotentialMatch : Type := mkPotentialMatch {
  vs_sec : float;
  vs_clip_frame_img : Image;
  left_char_key : string;
  right_char_key : string;
  left_hash_diff : nat;
  right_hash_diff : nat;
  round_start_sec : option float;
  clause_hash_diff : option nat
}.

Record ScanState : Type := mkScanState {
  next_sec : float;
  last_vs_sec : float;
  vs_clip_frame_imgs : list Image;
  potential_matches : list PotentialMatch
}.

Definition Frame : Type := (float * ClipFrame)%type.

Definition initial_state : ScanState :=
  {| next_sec := 0%float; last_vs_sec := 0%float;
     vs_clip_frame_imgs := []; potential_matches := [] |}.

Definition select_branch (cat : Catalog) (st : ScanState) (sec : float)
    (img : Image) : Branch :=
  if (sec - last_vs_sec st <? ROUND_START_MAX_OFFSET_SECS)%float
     && truthy (potential_matches st)
  then RoundStartCheck
  else if (vs_img_hash_diff cat img <? VS_IMAGE_HASH_THRESHOLD)%nat
  then VsCollection
  else if truthy (vs_clip_frame_imgs st)
  then BurstClosure
  else Idle.

Definition set_round_start (sec : float) (diff : nat) (m : PotentialMatch)
  : PotentialMatch :=
  {| vs_sec := vs_sec m;
     vs_clip_frame_img := vs_clip_frame_img m;
     left_char_key := left_char_key m;
     right_char_key := right_char_key m;
     left_hash_diff := left_hash_diff m;
     right_hash_diff := right_hash_diff m;
     round_start_sec := Some sec;
     clause_hash_diff := Some diff |}.

Definition with_next_sec (st : ScanState) (t : float) : ScanState :=
  {| next_sec := t;
     last_vs_sec := last_vs_sec st;
     vs_clip_frame_imgs := vs_clip_frame_imgs st;
     potential_matches := potential_matches st |}.

Definition round_start_check (cat : Catalog) (st : ScanState) (sec : float)
    (img : Image) : ScanState :=
  let d := clause_img_hash_diff cat img in
  if (d <? CLAUSE_IMAGE_HASH_THRESHOLD)%nat then
    {| next_sec := py_max (last_vs_sec st + ROUND_START_MAX_OFFSET_SECS)%float
                          (sec + SKIP_SECS)%float;
       last_vs_sec := last_vs_sec st;
       vs_clip_frame_imgs := vs_clip_frame_imgs st;
       potential_matches :=
         update_last (set_round_start sec d) (potential_matches st) |}
  else with_next_sec st (sec + SEEK_SECS)%float.

Definition vs_collection (st : ScanState) (sec : float) (img : Image)
  : ScanState :=
  {| next_sec := (sec + SEEK_SECS)%float;
     last_vs_sec := last_vs_sec st;
     vs_clip_frame_imgs := vs_clip_frame_imgs st ++ [img];
     potential_matches := potential_matches st |}.

Definition burst_closure (cat : Catalog) (st : ScanState) (sec : float)
  : option ScanState :=
  let imgs := vs_clip_frame_imgs st in
  match nth_error imgs (List.length imgs / 2) with
  | None => None
  | Some vs_img =>
      match classify (crop vs_img CHAR_LEFT_IMAGE_BOX) (CHAR_LEFT_HASHES cat),
            classify (crop vs_img CHAR_RIGHT_IMAGE_BOX) (CHAR_RIGHT_HASHES cat)
      with
      | Some (ld, lk), Some (rd, rk) =>
          Some {| next_sec := (sec + SEEK_SECS)%float;
                  last_vs_sec := sec;
                  vs_clip_frame_imgs := [];
                  potential_matches :=
                    potential_matches st ++
                    [ {| vs_sec := sec;
                         vs_clip_frame_img := vs_img;
                         left_char_key := lk;
                         right_char_key := rk;
                         left_hash_diff := ld;
                         right_hash_diff := rd;
                         round_start_sec := None;
                         clause_hash_diff := None |} ] |}
      | _, _ => None
      end
  end.

Definition examine (cat : Catalog) (st : ScanState) (sec : float)
    (img : Image) : option ScanState :=
  match select_branch cat st sec img with
  | RoundStartCheck => Some (round_start_check cat st sec img)
  | VsCollection => Some (vs_collection st sec img)
  | BurstClosure => burst_closure cat st sec
  | Idle => Some (with_next_sec st (sec + SEEK_SECS)%float)
  end.

Definition step (cat : Catalog) (st : ScanState) (fr : Frame)
  : option ScanState :=
  let (sec, clip_frame) := fr in
  if (sec <? next_sec st)%float then Some st
  else examine cat st sec (clip_frame_to_image clip_frame).

Fixpoint run (cat : Catalog) (st : ScanState) (frames : list Frame)
  : option ScanState :=
  match frames with
  | [] => Some st
  | fr :: frames' =>
      match step cat st fr with
      | None => None
      | Some st' => run cat st' frames'
      end
  end.

Definition scan (cat : Catalog) (frames : list Frame)
  : option (list PotentialMatch) :=
  option_map potential_matches (run cat initial_state frames).

(* The frame is not skipped by [if sec < next_sec: continue]. *)
Definition examined (st : ScanState) (sec : float) : Prop :=
  (sec <? next_sec st)%float = false.

(* The window test of the round-start branch, as it is computed. *)
Definition in_window (st : ScanState) (sec : float) : Prop :=
  (sec - last_vs_sec st <? ROUND_START_MAX_OFFSET_SECS)%float = true.

(* The same record up to the two optional fields. *)
Definition same_vs_screen (m m' : PotentialMatch) : Prop :=
  vs_sec m' = vs_sec m /\
  vs_clip_frame_img m' = vs_clip_frame_img m /\
  left_char_key m' = left_char_key m /\
  right_char_key m' = right_char_key m /\
  left_hash_diff m' = left_hash_diff m /\
  right_hash_diff m' = right_hash_diff m.

End Scan.

(** *** Two 30 fps clips *)






(* A VS screen at frame 376, closed by gameplay at frame 384 (12.8 s);
   the round-start marker at frame 416 (13.87 s). *)
Definition overwrite_prefix : list (@Frame SynImaging) :=
  [(frame_time 376 30, vs_a); (frame_time 384 30, plain);
   (frame_time 416 30, clause_frame)].

(* The marker on screen again at frame 984 (32.8 s). *)
Definition overwrite_frame : @Frame SynImaging :=
  (frame_time 984 30, clause_frame).

(* The match of [overwrite_prefix] before its round start is recorded. *)
Definition overwrite_match : @PotentialMatch SynImaging :=
  @mkPotentialMatch SynImaging (frame_time 384 30) vs_a
    "hyde-left" "seth-right" 1 2 None None.

End Binary64.

(** * Properties *)

(** ** Comparisons *)

Lemma Qltb_true (a b : Q) : Qltb a b = true <-> a < b.
Proof.
  unfold Qltb. rewrite negb_true_iff.
  split; intro H.
  - apply Qnot_le_lt. intro L. apply Qle_bool_iff in L. congruence.
  - destruct (Qle_bool b a) eqn:E; [|reflexivity].
    apply Qle_bool_iff in E. exfalso. apply (Qlt_not_le _ _ H E).
Qed.

Lemma Qltb_false (a b : Q) : Qltb a b = false <-> b <= a.
Proof.
  unfold Qltb. rewrite negb_false_iff. apply Qle_bool_iff.
Qed.

Lemma py_max_left (a b : Q) : a <= py_max a b.
Proof.
  unfold py_max. destruct (Qltb a b) eqn:E.
  - apply Qltb_true in E. lra.
  - lra.
Qed.

Lemma py_max_right (a b : Q) : b <= py_max a b.
Proof.
  unfold py_max. destruct (Qltb a b) eqn:E.
  - lra.
  - apply Qltb_false in E. lra.
Qed.

Lemma ascii_compare_refl (a : ascii) : Ascii.compare a a = Eq.
Proof. unfold Ascii.compare. apply N.compare_refl. Qed.

Lemma string_compare_refl (s : string) : String.compare s s = Eq.
Proof.
  induction s as [|a s IH]; simpl; [reflexivity|].
  now rewrite ascii_compare_refl.
Qed.

Lemma string_compare_lt_trans (s1 : string) :
  forall s2 s3,
    String.compare s1 s2 = Lt -> String.compare s2 s3 = Lt ->
    String.compare s1 s3 = Lt.
Proof.
  induction s1 as [|a s1 IH]; intros [|b s2] [|c s3]; simpl;
    try discriminate; try reflexivity.
  destruct (Ascii.compare a b) eqn:Eab; try discriminate;
    destruct (Ascii.compare b c) eqn:Ebc; try discriminate; intros H1 H2.
  - apply Ascii.compare_eq_iff in Eab, Ebc. subst.
    rewrite ascii_compare_refl. eauto.
  - apply Ascii.compare_eq_iff in Eab. subst. now rewrite Ebc.
  - apply Ascii.compare_eq_iff in Ebc. subst. now rewrite Eab.
  - unfold Ascii.compare in *.
    rewrite N.compare_lt_iff in Eab, Ebc.
    assert (L : (N_of_ascii a < N_of_ascii c)%N) by lia.
    rewrite <- N.compare_lt_iff in L. now rewrite L.
Qed.

Lemma string_ltb_lt (s1 s2 : string) :
  String.ltb s1 s2 = true <-> String.compare s1 s2 = Lt.
Proof.
  unfold String.ltb. destruct (String.compare s1 s2); split; congruence.
Qed.

Lemma tuple_lt_spec (a b : nat * string) :
  tuple_lt a b = true <->
  (fst a < fst b)%nat \/
  (fst a = fst b /\ String.compare (snd a) (snd b) = Lt).
Proof.
  unfold tuple_lt.
  rewrite orb_true_iff, andb_true_iff, Nat.ltb_lt, Nat.eqb_eq, string_ltb_lt.
  reflexivity.
Qed.

Lemma tuple_lt_irrefl (a : nat * string) : tuple_lt a a = false.
Proof.
  destruct (tuple_lt a a) eqn:E; [|reflexivity].
  apply tuple_lt_spec in E. destruct E as [E|[_ E]].
  - lia.
  - rewrite string_compare_refl in E. discriminate.
Qed.

Lemma tuple_lt_trans (a b c : nat * string) :
  tuple_lt a b = true -> tuple_lt b c = true -> tuple_lt a c = true.
Proof.
  rewrite !tuple_lt_spec.
  intros [H1|[H1 K1]] [H2|[H2 K2]].
  - left; lia.
  - left; lia.
  - left; lia.
  - right. split; [lia|]. eapply string_compare_lt_trans; eassumption.
Qed.

Lemma tuple_lt_total (a b : nat * string) :
  tuple_lt a b = false -> tuple_lt b a = false -> a = b.
Proof.
  intros H1 H2.
  destruct a as [d1 k1], b as [d2 k2].
  destruct (lt_eq_lt_dec d1 d2) as [[L|E]|L].
  - assert (T : tuple_lt (d1, k1) (d2, k2) = true)
      by (apply tuple_lt_spec; left; exact L).
    congruence.
  - subst d2.
    destruct (String.compare k1 k2) eqn:C.
    + apply String.compare_eq_iff in C. now subst.
    + assert (T : tuple_lt (d1, k1) (d1, k2) = true)
        by (apply tuple_lt_spec; right; split; [reflexivity|exact C]).
      congruence.
    + assert (T : tuple_lt (d1, k2) (d1, k1) = true).
      { apply tuple_lt_spec; right; split; [reflexivity|].
        simpl. rewrite String.compare_antisym, C. reflexivity. }
      congruence.
  - assert (T : tuple_lt (d2, k2) (d1, k1) = true)
      by (apply tuple_lt_spec; left; exact L).
    congruence.
Qed.

Lemma tuple_lt_asym (a b : nat * string) :
  tuple_lt a b = true -> tuple_lt b a = false.
Proof.
  intro H. destruct (tuple_lt b a) eqn:E; [|reflexivity].
  pose proof (tuple_lt_trans _ _ _ H E) as T.
  rewrite tuple_lt_irrefl in T. discriminate.
Qed.

(* [a <= b] and [b <= c] give [a <= c], with [x <= y] read as
   [not (y < x)]. *)
Lemma tuple_le_trans (a b c : nat * string) :
  tuple_lt b a = false -> tuple_lt c b = false -> tuple_lt c a = false.
Proof.
  intros H1 H2.
  destruct (tuple_lt c a) eqn:E; [|reflexivity].
  destruct (tuple_lt a b) eqn:F.
  - pose proof (tuple_lt_trans _ _ _ E F). congruence.
  - pose proof (tuple_lt_total _ _ F H1). subst b. congruence.
Qed.

(** ** [sorted] and its first element *)

Lemma insert_sorted_perm (x : nat * string) (l : list (nat * string)) :
  Permutation (insert_sorted x l) (x :: l).
Proof.
  induction l as [|y l IH]; simpl; [reflexivity|].
  destruct (tuple_lt y x).
  - rewrite IH. apply perm_swap.
  - reflexivity.
Qed.

Lemma sorted_perm (l : list (nat * string)) : Permutation (sorted l) l.
Proof.
  induction l as [|x l IH]; simpl; [reflexivity|].
  rewrite insert_sorted_perm. now constructor.
Qed.

Lemma hd_insert_sorted (x : nat * string) (l : list (nat * string)) :
  hd_error (insert_sorted x l) =
  match hd_error l with
  | None => Some x
  | Some y => Some (if tuple_lt y x then y else x)
  end.
Proof.
  destruct l as [|y l]; simpl; [reflexivity|].
  destruct (tuple_lt y x); reflexivity.
Qed.

Lemma sorted_hd_lower_bound (l : list (nat * string)) :
  forall x, hd_error (sorted l) = Some x -> In x l /\ lower_bound x l.
Proof.
  induction l as [|a l IH]; simpl; intros x H; [discriminate|].
  rewrite hd_insert_sorted in H.
  destruct (hd_error (sorted l)) as [m|] eqn:Hm.
  - destruct (IH m eq_refl) as [Im Lm].
    destruct (tuple_lt m a) eqn:E; injection H as <-.
    + split; [now right|].
      intros y [<-|Iy]; [now apply tuple_lt_asym|now apply Lm].
    + split; [now left|].
      intros y [<-|Iy]; [apply tuple_lt_irrefl|].
      apply (tuple_le_trans a m y); [exact E|now apply Lm].
  - injection H as <-.
    assert (N : sorted l = [])
      by (destruct (sorted l); [reflexivity|discriminate]).
    pose proof (sorted_perm l) as P. rewrite N in P.
    apply Permutation_nil in P. subst l.
    split; [now left|].
    intros y [<-|[]]. apply tuple_lt_irrefl.
Qed.

Lemma sorted_hd_some (l : list (nat * string)) :
  l <> [] -> exists x, hd_error (sorted l) = Some x.
Proof.
  intro N. destruct (sorted l) as [|x r] eqn:E.
  - pose proof (sorted_perm l) as P. rewrite E in P.
    apply Permutation_nil in P. contradiction.
  - now exists x.
Qed.

Lemma lower_bound_unique (l : list (nat * string)) (x y : nat * string) :
  In x l -> lower_bound x l -> In y l -> lower_bound y l -> x = y.
Proof.
  intros Ix Lx Iy Ly. apply tuple_lt_total; [apply Ly|apply Lx]; assumption.
Qed.

Lemma sorted_hd_perm (l l' : list (nat * string)) :
  Permutation l l' -> hd_error (sorted l) = hd_error (sorted l').
Proof.
  intro P.
  destruct (hd_error (sorted l)) as [x|] eqn:Hx.
  - destruct (sorted_hd_lower_bound _ _ Hx) as [Ix Lx].
    assert (N : l' <> []).
    { intro E. subst l'. apply Permutation_sym, Permutation_nil in P.
      subst l. destruct Ix. }
    destruct (sorted_hd_some _ N) as [y Hy].
    destruct (sorted_hd_lower_bound _ _ Hy) as [Iy Ly].
    rewrite Hy. f_equal.
    apply (lower_bound_unique l'); try assumption.
    + eapply Permutation_in; eassumption.
    + intros z Iz. apply Lx. eapply Permutation_in; [symmetry|]; eassumption.
  - destruct l as [|a l].
    + apply Permutation_nil in P. now subst l'.
    + destruct (sorted_hd_some (a :: l)) as [x Hx']; [discriminate|congruence].
Qed.

(** ** List helpers *)

Lemma truthy_true {A : Type} (l : list A) : truthy l = true <-> l <> [].
Proof. destruct l; simpl; split; congruence. Qed.

Lemma truthy_false {A : Type} (l : list A) : truthy l = false <-> l = [].
Proof. destruct l; simpl; split; congruence. Qed.

Lemma update_last_snoc {A : Type} (f : A -> A) (l : list A) (x : A) :
  update_last f (l ++ [x]) = l ++ [f x].
Proof.
  induction l as [|y l IH]; simpl; [reflexivity|].
  rewrite IH. destruct (l ++ [x]) eqn:E; [|reflexivity].
  destruct l; discriminate.
Qed.

Lemma nonempty_snoc {A : Type} (l : list A) :
  l <> [] -> exists l' x, l = l' ++ [x].
Proof.
  intro N. destruct (exists_last N) as [l' [x E]]. now exists l', x.
Qed.


(** ** The loop body *)

Section ScanFacts.

Context `{IM : Imaging}.

Implicit Types (cat : Catalog) (st : ScanState) (sec : Q) (img : Image).

Lemma select_round_start cat st sec img :
  select_branch cat st sec img = RoundStartCheck <-> round_start_applies st sec.
Proof.
  unfold select_branch, round_start_applies.
  destruct (Qltb (sec - last_vs_sec st) ROUND_START_MAX_OFFSET_SECS) eqn:W;
    destruct (truthy (potential_matches st)) eqn:T; simpl.
  - apply Qltb_true in W. apply truthy_true in T. tauto.
  - apply truthy_false in T.
    split; [|tauto].
    intro H. exfalso. revert H.
    destruct (_ <? _)%nat; [discriminate|].
    destruct (truthy (vs_clip_frame_imgs st)); discriminate.
  - apply Qltb_false in W.
    split; [|intros [_ L]; lra].
    intro H. exfalso. revert H.
    destruct (_ <? _)%nat; [discriminate|].
    destruct (truthy (vs_clip_frame_imgs st)); discriminate.
  - apply truthy_false in T.
    split; [|tauto].
    intro H. exfalso. revert H.
    destruct (_ <? _)%nat; [discriminate|].
    destruct (truthy (vs_clip_frame_imgs st)); discriminate.
Qed.

Lemma select_not_round_start cat st sec img :
  ~ round_start_applies st sec ->
  select_branch cat st sec img =
  if (vs_img_hash_diff cat img <? VS_IMAGE_HASH_THRESHOLD)%nat
  then VsCollection
  else if truthy (vs_clip_frame_imgs st) then BurstClosure else Idle.
Proof.
  intro N. unfold select_branch.
  destruct (Qltb (sec - last_vs_sec st) ROUND_START_MAX_OFFSET_SECS
            && truthy (potential_matches st)) eqn:G; [|reflexivity].
  exfalso. apply N.
  apply andb_true_iff in G. destruct G as [W T].
  apply Qltb_true in W. apply truthy_true in T. now split.
Qed.

Lemma select_vs_collection cat st sec img :
  select_branch cat st sec img = VsCollection <->
  ~ round_start_applies st sec /\ vs_marker cat img.
Proof.
  unfold vs_marker. split.
  - intro H.
    assert (N : ~ round_start_applies st sec).
    { intro R. apply (select_round_start cat st sec img) in R. congruence. }
    split; [exact N|].
    rewrite (select_not_round_start _ _ _ _ N) in H.
    destruct (_ <? _)%nat eqn:V; [now apply Nat.ltb_lt|].
    destruct (truthy _); discriminate.
  - intros [N V]. rewrite (select_not_round_start _ _ _ _ N).
    apply Nat.ltb_lt in V. now rewrite V.
Qed.

Lemma select_burst_closure cat st sec img :
  select_branch cat st sec img = BurstClosure <->
  ~ round_start_applies st sec /\ ~ vs_marker cat img /\ burst_pending st.
Proof.
  unfold vs_marker, burst_pending. split.
  - intro H.
    assert (N : ~ round_start_applies st sec).
    { intro R. apply (select_round_start cat st sec img) in R. congruence. }
    split; [exact N|].
    rewrite (select_not_round_start _ _ _ _ N) in H.
    destruct (_ <? _)%nat eqn:V; [discriminate|].
    apply Nat.ltb_ge in V.
    destruct (truthy _) eqn:T; [|discriminate].
    apply truthy_true in T. split; [lia|exact T].
  - intros [N [V P]]. rewrite (select_not_round_start _ _ _ _ N).
    destruct (_ <? _)%nat eqn:W; [apply Nat.ltb_lt in W; contradiction|].
    apply truthy_true in P. now rewrite P.
Qed.

Lemma select_idle cat st sec img :
  select_branch cat st sec img = Idle <->
  ~ round_start_applies st sec /\ ~ vs_marker cat img /\ ~ burst_pending st.
Proof.
  unfold vs_marker, burst_pending. split.
  - intro H.
    assert (N : ~ round_start_applies st sec).
    { intro R. apply (select_round_start cat st sec img) in R. congruence. }
    split; [exact N|].
    rewrite (select_not_round_start _ _ _ _ N) in H.
    destruct (_ <? _)%nat eqn:V; [discriminate|].
    apply Nat.ltb_ge in V.
    destruct (truthy _) eqn:T; [discriminate|].
    apply truthy_false in T. split; [lia|]. intro P. contradiction.
  - intros [N [V P]]. rewrite (select_not_round_start _ _ _ _ N).
    destruct (_ <? _)%nat eqn:W; [apply Nat.ltb_lt in W; contradiction|].
    destruct (truthy _) eqn:T; [|reflexivity].
    apply truthy_true in T. contradiction.
Qed.

Lemma step_skipped cat st sec (cf : ClipFrame) :
  sec < next_sec st -> step cat st (sec, cf) = Some st.
Proof.
  intro L. unfold step. apply Qltb_true in L. now rewrite L.
Qed.

Lemma step_examined cat st sec (cf : ClipFrame) :
  examined st sec ->
  step cat st (sec, cf) = examine cat st sec (clip_frame_to_image cf).
Proof.
  intro L. unfold step. apply Qltb_false in L. now rewrite L.
Qed.

Lemma run_app cat st (fs1 fs2 : list Frame) :
  run cat st (fs1 ++ fs2) =
  match run cat st fs1 with
  | None => None
  | Some st' => run cat st' fs2
  end.
Proof.
  revert st. induction fs1 as [|fr fs1 IH]; intro st; simpl; [reflexivity|].
  destruct (step cat st fr); [apply IH|reflexivity].
Qed.


End ScanFacts.

(** ** The cursor only moves forward *)

Section Cursor.

Context `{IM : Imaging}.

Implicit Types (cat : Catalog) (st : ScanState) (sec : Q) (img : Image).

Lemma round_start_check_next_sec cat st sec img :
  sec < next_sec (round_start_check cat st sec img).
Proof.
  unfold round_start_check.
  destruct (_ <? _)%nat; simpl.
  - pose proof (py_max_right (last_vs_sec st + ROUND_START_MAX_OFFSET_SECS)
                             (sec + SKIP_SECS)) as M.
    unfold SKIP_SECS in *. lra.
  - unfold SEEK_SECS. lra.
Qed.

Lemma burst_closure_next_sec cat st sec st' :
  burst_closure cat st sec = Some st' -> next_sec st' = sec + SEEK_SECS.
Proof.
  unfold burst_closure.
  destruct (nth_error _ _) as [vs_img|]; [|discriminate].
  destruct (classify _ (CHAR_LEFT_HASHES cat)) as [[ld lk]|]; [|discriminate].
  destruct (classify _ (CHAR_RIGHT_HASHES cat)) as [[rd rk]|]; [|discriminate].
  intro H. injection H as <-. reflexivity.
Qed.

Lemma examine_next_sec cat st sec img st' :
  examine cat st sec img = Some st' -> sec < next_sec st'.
Proof.
  unfold examine.
  destruct (select_branch cat st sec img); intro H.
  - injection H as <-. apply round_start_check_next_sec.
  - injection H as <-. simpl. unfold SEEK_SECS. lra.
  - rewrite (burst_closure_next_sec _ _ _ _ H). unfold SEEK_SECS. lra.
  - injection H as <-. simpl. unfold SEEK_SECS. lra.
Qed.

Lemma step_next_sec_mono cat st (fr : Frame) st' :
  step cat st fr = Some st' -> next_sec st <= next_sec st'.
Proof.
  destruct fr as [sec cf]. unfold step.
  destruct (Qltb sec (next_sec st)) eqn:E; intro H.
  - injection H as <-. lra.
  - apply Qltb_false in E. apply examine_next_sec in H. lra.
Qed.

Lemma run_next_sec_mono cat (frames : list Frame) :
  forall st st', run cat st frames = Some st' -> next_sec st <= next_sec st'.
Proof.
  induction frames as [|fr frames IH]; simpl; intros st st' H.
  - injection H as <-. lra.
  - destruct (step cat st fr) as [st1|] eqn:S; [|discriminate].
    apply step_next_sec_mono in S. apply IH in H. lra.
Qed.

End Cursor.

(** ** What a step can do to the match list *)

Section Effects.

Context `{IM : Imaging}.

Implicit Types (cat : Catalog) (st : ScanState) (sec : Q) (img : Image).

(* The match opened by a burst closure. *)
Lemma burst_closure_spec cat st sec st' :
  burst_closure cat st sec = Some st' ->
  exists vs_img ld lk rd rk,
    nth_error (vs_clip_frame_imgs st)
              (List.length (vs_clip_frame_imgs st) / 2) = Some vs_img /\
    classify (crop vs_img CHAR_LEFT_IMAGE_BOX) (CHAR_LEFT_HASHES cat)
      = Some (ld, lk) /\
    classify (crop vs_img CHAR_RIGHT_IMAGE_BOX) (CHAR_RIGHT_HASHES cat)
      = Some (rd, rk) /\
    st' = {| next_sec := sec + SEEK_SECS;
             last_vs_sec := sec;
             vs_clip_frame_imgs := [];
             potential_matches :=
               potential_matches st ++
               [mkPotentialMatch sec vs_img lk rk ld rd None None] |}.
Proof.
  unfold burst_closure.
  destruct (nth_error _ _) as [vs_img|] eqn:Hn; [|discriminate].
  destruct (classify _ (CHAR_LEFT_HASHES cat)) as [[ld lk]|] eqn:Hl;
    [|discriminate].
  destruct (classify _ (CHAR_RIGHT_HASHES cat)) as [[rd rk]|] eqn:Hr;
    [|discriminate].
  intro H. injection H as <-.
  exists vs_img, ld, lk, rd, rk. repeat split; assumption.
Qed.

(* An examined frame confirms a round start, or opens a match, or leaves
   the match list and [last_vs_sec] alone. *)
Lemma examine_cases cat st sec img st' :
  examine cat st sec img = Some st' ->
  (round_start_applies st sec /\ clause_marker cat img /\
   st' = {| next_sec := py_max (last_vs_sec st + ROUND_START_MAX_OFFSET_SECS)
                               (sec + SKIP_SECS);
            last_vs_sec := last_vs_sec st;
            vs_clip_frame_imgs := vs_clip_frame_imgs st;
            potential_matches :=
              update_last (set_round_start sec (clause_img_hash_diff cat img))
                          (potential_matches st) |})
  \/
  (~ round_start_applies st sec /\ burst_closure cat st sec = Some st')
  \/
  (last_vs_sec st' = last_vs_sec st /\
   potential_matches st' = potential_matches st /\
   next_sec st' = sec + SEEK_SECS).
Proof.
  unfold examine.
  destruct (select_branch cat st sec img) eqn:B; intro H.
  - apply select_round_start in B.
    injection H as <-. unfold round_start_check.
    destruct (_ <? _)%nat eqn:D.
    + left. apply Nat.ltb_lt in D. repeat split; solve [apply B | exact D].
    + right; right. simpl. repeat split.
  - injection H as <-. right; right. simpl. repeat split.
  - apply select_burst_closure in B. right; left. split; [apply B|exact H].
  - injection H as <-. right; right. simpl. repeat split.
Qed.

Lemma initial_inv : scan_inv initial_state.
Proof.
  unfold scan_inv, cursor_tracks_last. simpl.
  split; [constructor|]. split; [constructor|].
  intros ms m E. destruct ms; discriminate.
Qed.

Lemma examine_inv cat st sec img st' :
  scan_inv st -> examined st sec ->
  examine cat st sec img = Some st' -> scan_inv st'.
Proof.
  intros (Hb & Hw & Hc) Ex H. unfold examined in Ex.
  destruct (examine_cases _ _ _ _ _ H)
    as [(R & D & ->)|[(N & C)|(E1 & E2 & E3)]].
  - (* round start confirmed *)
    destruct R as [Ne W].
    destruct (nonempty_snoc _ Ne) as (ms & m & Em).
    destruct (Hc ms m Em) as (L1 & L2 & L3).
    unfold scan_inv, cursor_tracks_last. simpl.
    rewrite Em, update_last_snoc. rewrite Em in Hb, Hw.
    apply Forall_app in Hb. apply Forall_app in Hw.
    split; [|split].
    + apply Forall_app. split; [apply Hb|].
      constructor; [|constructor]. left. simpl. eauto.
    + apply Forall_app. split; [apply Hw|].
      constructor; [|constructor].
      unfold round_start_in_window. simpl. rewrite <- L1.
      split; [rewrite L1; lra|exact W].
    + intros ms' m' E'. apply app_inj_tail in E'. destruct E' as [_ <-].
      simpl. split; [exact L1|]. split.
      * pose proof (py_max_right
                      (last_vs_sec st + ROUND_START_MAX_OFFSET_SECS)
                      (sec + SKIP_SECS)).
        unfold SKIP_SECS in *. lra.
      * intros _. apply py_max_left.
  - (* a match is opened *)
    destruct (burst_closure_spec _ _ _ _ C)
      as (v & ld & lk & rd & rk & _ & _ & _ & ->).
    unfold scan_inv, cursor_tracks_last. simpl.
    split; [|split].
    + apply Forall_app. split; [exact Hb|].
      constructor; [|constructor]. right. split; reflexivity.
    + apply Forall_app. split; [exact Hw|]. constructor; [exact I|constructor].
    + intros ms' m' E'. apply app_inj_tail in E'. destruct E' as [_ <-].
      simpl. split; [reflexivity|]. split.
      * unfold SEEK_SECS. lra.
      * congruence.
  - (* nothing recorded *)
    unfold scan_inv, cursor_tracks_last. rewrite E1, E2, E3.
    split; [exact Hb|]. split; [exact Hw|].
    intros ms m Em. destruct (Hc ms m Em) as (L1 & L2 & L3).
    split; [exact L1|]. split.
    + unfold SEEK_SECS. lra.
    + intro S. specialize (L3 S). unfold SEEK_SECS. lra.
Qed.

Lemma step_inv cat st (fr : Frame) st' :
  scan_inv st -> step cat st fr = Some st' -> scan_inv st'.
Proof.
  intros I. destruct fr as [sec cf]. unfold step.
  destruct (Qltb sec (next_sec st)) eqn:E; intro H.
  - now injection H as <-.
  - apply Qltb_false in E. eapply examine_inv; eassumption.
Qed.

Lemma run_inv cat (frames : list Frame) :
  forall st st', scan_inv st -> run cat st frames = Some st' -> scan_inv st'.
Proof.
  induction frames as [|fr frames IH]; simpl; intros st st' I H.
  - now injection H as <-.
  - destruct (step cat st fr) as [st1|] eqn:S; [|discriminate].
    eapply IH; [|exact H]. eapply step_inv; eassumption.
Qed.

Lemma reachable_inv cat st : reachable cat st -> scan_inv st.
Proof.
  intros [frames H]. eapply run_inv; [apply initial_inv|exact H].
Qed.

Lemma reachable_step cat st (fr : Frame) st' :
  reachable cat st -> step cat st fr = Some st' -> reachable cat st'.
Proof.
  intros [frames H] S. exists (frames ++ [fr]).
  rewrite run_app, H. simpl. now rewrite S.
Qed.

Lemma reachable_run cat st (frames : list Frame) st' :
  reachable cat st -> run cat st frames = Some st' -> reachable cat st'.
Proof.
  intros [frames0 H] S. exists (frames0 ++ frames).
  now rewrite run_app, H.
Qed.

End Effects.

(** ** The character lookup *)

Section Classifier.

Context `{IM : Imaging}.

Implicit Types (img : Image) (roster : list (string * ImageHash)).

Lemma classify_spec img roster d k :
  classify img roster = Some (d, k) ->
  In (d, k) (hash_diffs img roster) /\
  lower_bound (d, k) (hash_diffs img roster).
Proof. apply sorted_hd_lower_bound. Qed.

Lemma classify_some img roster :
  roster <> [] -> exists d k, classify img roster = Some (d, k).
Proof.
  intro N.
  destruct (sorted_hd_some (hash_diffs img roster)) as [[d k] H].
  - unfold hash_diffs. destruct roster; [contradiction|discriminate].
  - now exists d, k.
Qed.

Lemma classify_perm img roster roster' :
  Permutation roster roster' -> classify img roster = classify img roster'.
Proof.
  intro P. unfold classify, hash_diffs.
  apply sorted_hd_perm. now apply Permutation_map.
Qed.

Lemma in_hash_diffs img roster k h :
  In (k, h) roster -> In (hash_sub (dhash img) h, k) (hash_diffs img roster).
Proof.
  intro I. unfold hash_diffs.
  apply (in_map (fun kh => (hash_sub (dhash img) (snd kh), fst kh)) _ _ I).
Qed.

Lemma classify_attains img roster d k :
  classify img roster = Some (d, k) ->
  exists h, In (k, h) roster /\ d = hash_sub (dhash img) h.
Proof.
  intro H. apply classify_spec in H. destruct H as [I _].
  unfold hash_diffs in I. apply in_map_iff in I.
  destruct I as ([k0 h] & E & I). simpl in E. injection E as <- <-.
  now exists h.
Qed.

Lemma classify_minimal img roster d k :
  classify img roster = Some (d, k) ->
  forall k' h', In (k', h') roster -> (d <= hash_sub (dhash img) h')%nat.
Proof.
  intros H k' h' I. apply classify_spec in H. destruct H as [_ L].
  specialize (L _ (in_hash_diffs img roster k' h' I)).
  destruct (le_lt_dec d (hash_sub (dhash img) h')) as [Le|Lt]; [exact Le|].
  assert (T : tuple_lt (hash_sub (dhash img) h', k') (d, k) = true)
    by (apply tuple_lt_spec; left; exact Lt).
  congruence.
Qed.

Lemma classify_smallest_key img roster d k :
  classify img roster = Some (d, k) ->
  forall k' h',
    In (k', h') roster -> hash_sub (dhash img) h' = d ->
    String.leb k k' = true.
Proof.
  intros H k' h' I E. apply classify_spec in H. destruct H as [_ L].
  specialize (L _ (in_hash_diffs img roster k' h' I)). rewrite E in L.
  unfold String.leb. rewrite String.compare_antisym.
  destruct (String.compare k' k) eqn:C; try reflexivity.
  assert (T : tuple_lt (d, k') (d, k) = true)
    by (apply tuple_lt_spec; right; split; [reflexivity|exact C]).
  congruence.
Qed.


End Classifier.

(** ** Which branch an examined frame takes *)

Section Branches.

Context `{IM : Imaging}.

Implicit Types (cat : Catalog) (st : ScanState) (sec : Q) (img : Image).

Lemma examine_round_start cat st sec img :
  round_start_applies st sec ->
  examine cat st sec img = Some (round_start_check cat st sec img).
Proof.
  intro R. unfold examine.
  apply (select_round_start cat st sec img) in R. now rewrite R.
Qed.

Lemma examine_vs_collection cat st sec img :
  ~ round_start_applies st sec -> vs_marker cat img ->
  examine cat st sec img = Some (vs_collection st sec img).
Proof.
  intros N V. unfold examine.
  assert (B : select_branch cat st sec img = VsCollection)
    by (apply select_vs_collection; now split).
  now rewrite B.
Qed.

Lemma examine_burst_closure cat st sec img :
  ~ round_start_applies st sec -> ~ vs_marker cat img -> burst_pending st ->
  examine cat st sec img = burst_closure cat st sec.
Proof.
  intros N V P. unfold examine.
  assert (B : select_branch cat st sec img = BurstClosure)
    by (apply select_burst_closure; repeat split; assumption).
  now rewrite B.
Qed.

Lemma examine_idle cat st sec img :
  ~ round_start_applies st sec -> ~ vs_marker cat img -> ~ burst_pending st ->
  examine cat st sec img = Some (with_next_sec st (sec + SEEK_SECS)).
Proof.
  intros N V P. unfold examine.
  assert (B : select_branch cat st sec img = Idle)
    by (apply select_idle; repeat split; assumption).
  now rewrite B.
Qed.

Lemma round_start_check_hit cat st sec img :
  clause_marker cat img ->
  round_start_check cat st sec img =
  {| next_sec := py_max (last_vs_sec st + ROUND_START_MAX_OFFSET_SECS)
                        (sec + SKIP_SECS);
     last_vs_sec := last_vs_sec st;
     vs_clip_frame_imgs := vs_clip_frame_imgs st;
     potential_matches :=
       update_last (set_round_start sec (clause_img_hash_diff cat img))
                   (potential_matches st) |}.
Proof.
  intro C. unfold round_start_check, clause_marker in *.
  apply Nat.ltb_lt in C. now rewrite C.
Qed.

Lemma round_start_check_miss cat st sec img :
  ~ clause_marker cat img ->
  round_start_check cat st sec img = with_next_sec st (sec + SEEK_SECS).
Proof.
  intro C. unfold round_start_check, clause_marker in *.
  destruct (_ <? _)%nat eqn:D; [|reflexivity].
  apply Nat.ltb_lt in D. contradiction.
Qed.

(* Frames without markers record nothing once the buffer is empty. *)
Lemma quiet_step cat st (fr : Frame) :
  non_marker cat fr -> vs_clip_frame_imgs st = [] ->
  exists st',
    step cat st fr = Some st' /\
    vs_clip_frame_imgs st' = [] /\
    potential_matches st' = potential_matches st.
Proof.
  destruct fr as [sec cf]. intros [NV NC] E. simpl in NV, NC.
  unfold step. destruct (Qltb sec (next_sec st)); [now exists st|].
  set (img := clip_frame_to_image cf) in *.
  unfold examine. destruct (select_branch cat st sec img) eqn:B.
  - rewrite (round_start_check_miss _ _ _ _ NC).
    eexists; repeat split; assumption.
  - apply select_vs_collection in B. destruct B as [_ V]. contradiction.
  - apply select_burst_closure in B. destruct B as (_ & _ & P).
    unfold burst_pending in P. contradiction.
  - eexists; repeat split; assumption.
Qed.

Lemma quiet_run cat (frames : list Frame) :
  forall st,
    Forall (non_marker cat) frames -> vs_clip_frame_imgs st = [] ->
    exists st',
      run cat st frames = Some st' /\
      vs_clip_frame_imgs st' = [] /\
      potential_matches st' = potential_matches st.
Proof.
  induction frames as [|fr frames IH]; intros st F E.
  - now exists st.
  - inversion F as [|? ? Hfr Hrest]; subst.
    destruct (quiet_step cat st fr Hfr E) as (st1 & S & E1 & M1).
    destruct (IH st1 Hrest E1) as (st' & R & E' & M').
    exists st'. cbn [run]. rewrite S. repeat split; congruence.
Qed.

End Branches.

(** * The claims *)

(** ** Scenario B *)

(** C1 as stated fails.  Scenario B evaluated: on the burst at 5.0, 5.25,
    5.5 followed by gameplay frames at 5.75 and 6.0 the scan emits one
    match, its representative frame is the middle buffered one and its
    round start is unset, but its [vs_sec] is 5.75, the time of the frame
    that closed the burst, and not 5.25. *)
Lemma scenario_B_vs_sec_is_closing_time :
  (exists m,
      @scan SynImaging syn_catalog scenario_B = Some [m] /\
      vs_clip_frame_img m = vs_b /\
      round_start_sec m = None /\
      vs_sec m = 23 # 4) /\
  ~ (exists m,
        @scan SynImaging syn_catalog scenario_B = Some [m] /\
        vs_sec m == 21 # 4).
Proof.
  split.
  - eexists. vm_compute. repeat split.
  - intros (m & H & E). vm_compute in H. injection H as <-.
    vm_compute in E. discriminate.
Qed.

(** When the stream ends while the VS screen is still shown, nothing closes
    the burst and no match is emitted. *)
Lemma scenario_B_burst_only_no_match :
  @scan SynImaging syn_catalog scenario_B_burst_only = Some [].
Proof. vm_compute. reflexivity. Qed.

Section ScenarioB.

Context `{IM : Imaging}.

(** C1 (as amended): for the burst of Scenario B (VS frames at 5.0, 5.25
    and 5.5) followed by frames without markers, the first of them at or
    after 5.75, the scan emits exactly one match; its representative frame
    is the middle buffered frame (the one of 5.25), its [vs_sec] is the
    timestamp of the frame that closes the burst, both optional fields are
    unset, and its character keys and distances are the classifier's
    answers for the representative frame. *)
Theorem scenario_B_one_match (cat : Catalog) (a b c g : ClipFrame) (t : Q)
    (rest : list Frame) :
  CHAR_LEFT_HASHES cat <> [] ->
  CHAR_RIGHT_HASHES cat <> [] ->
  vs_marker cat (clip_frame_to_image a) ->
  vs_marker cat (clip_frame_to_image b) ->
  vs_marker cat (clip_frame_to_image c) ->
  23 # 4 <= t ->
  Forall (non_marker cat) ((t, g) :: rest) ->
  exists m,
    scan cat ((5, a) :: (21 # 4, b) :: (11 # 2, c) :: (t, g) :: rest)
      = Some [m] /\
    vs_clip_frame_img m = clip_frame_to_image b /\
    vs_sec m = t /\
    round_start_sec m = None /\
    clause_hash_diff m = None /\
    classify (crop (clip_frame_to_image b) CHAR_LEFT_IMAGE_BOX)
             (CHAR_LEFT_HASHES cat)
      = Some (left_hash_diff m, left_char_key m) /\
    classify (crop (clip_frame_to_image b) CHAR_RIGHT_IMAGE_BOX)
             (CHAR_RIGHT_HASHES cat)
      = Some (right_hash_diff m, right_char_key m).
Proof.
  intros NL NR Va Vb Vc Ht F.
  inversion F as [|? ? [NVg NCg] Frest]; subst. simpl in NVg, NCg.
  set (ia := clip_frame_to_image a) in *.
  set (ib := clip_frame_to_image b) in *.
  set (ic := clip_frame_to_image c) in *.
  set (s1 := vs_collection initial_state 5 ia).
  set (s2 := vs_collection s1 (21 # 4) ib).
  set (s3 := vs_collection s2 (11 # 2) ic).
  assert (no_match : forall st sec,
             potential_matches st = [] -> ~ round_start_applies st sec).
  { intros st sec E [N _]. contradiction. }
  assert (S1 : step cat initial_state (5, a) = Some s1).
  { rewrite step_examined by (unfold examined; simpl; lra).
    apply examine_vs_collection; [now apply no_match|exact Va]. }
  assert (S2 : step cat s1 (21 # 4, b) = Some s2).
  { rewrite step_examined
      by (unfold examined, s1; simpl; unfold SEEK_SECS; lra).
    apply examine_vs_collection; [now apply no_match|exact Vb]. }
  assert (S3 : step cat s2 (11 # 2, c) = Some s3).
  { rewrite step_examined
      by (unfold examined, s2; simpl; unfold SEEK_SECS; lra).
    apply examine_vs_collection; [now apply no_match|exact Vc]. }
  destruct (classify_some (crop ib CHAR_LEFT_IMAGE_BOX) _ NL)
    as (ld & lk & CL).
  destruct (classify_some (crop ib CHAR_RIGHT_IMAGE_BOX) _ NR)
    as (rd & rk & CR).
  set (m := mkPotentialMatch t ib lk rk ld rd None None).
  set (s4 := {| next_sec := t + SEEK_SECS; last_vs_sec := t;
                vs_clip_frame_imgs := []; potential_matches := [m] |}).
  assert (S4 : step cat s3 (t, g) = Some s4).
  { rewrite step_examined
      by (unfold examined, s3; simpl; unfold SEEK_SECS; lra).
    rewrite examine_burst_closure;
      [|now apply no_match|exact NVg|unfold burst_pending; discriminate].
    unfold burst_closure. simpl. rewrite CL, CR. reflexivity. }
  destruct (quiet_run cat rest s4 Frest eq_refl) as (st' & R & _ & M).
  exists m. unfold scan. cbn [run].
  rewrite S1, S2, S3, S4, R. simpl. rewrite M.
  repeat split; assumption.
Qed.

End ScenarioB.

(** Scenario B in the synthetic model, with two gameplay frames after the
    burst. *)
Lemma scenario_B_one_match_witness :
  exists m,
    @scan SynImaging syn_catalog scenario_B = Some [m] /\
    vs_clip_frame_img m = vs_b /\
    vs_sec m = 23 # 4 /\
    round_start_sec m = None /\
    clause_hash_diff m = None /\
    @classify SynImaging (syn_crop vs_b CHAR_LEFT_IMAGE_BOX)
              (CHAR_LEFT_HASHES syn_catalog)
      = Some (left_hash_diff m, left_char_key m) /\
    @classify SynImaging (syn_crop vs_b CHAR_RIGHT_IMAGE_BOX)
              (CHAR_RIGHT_HASHES syn_catalog)
      = Some (right_hash_diff m, right_char_key m).
Proof.
  apply (@scenario_B_one_match SynImaging syn_catalog vs_a vs_b vs_c plain
           (23 # 4) [(6, plain)]).
  - discriminate.
  - discriminate.
  - vm_compute. lia.
  - vm_compute. lia.
  - vm_compute. lia.
  - vm_compute. discriminate.
  - repeat constructor; vm_compute; lia.
Defined.

(** ** The four branches *)

Section BranchPriority.

Context `{IM : Imaging}.


End BranchPriority.



(** ** Best-effort classification *)

Section BestEffort.

Context `{IM : Imaging}.


End BestEffort.


(** ** The cursor *)

Section CursorMonotone.

Context `{IM : Imaging}.

(** C5: [next_sec] never decreases.  A skipped frame leaves it alone; an
    examined frame has a timestamp at least the current [next_sec], and
    every branch then assigns [next_sec] a value above that timestamp.
    So along any run from the initial state, [next_sec] at a later point
    is at least [next_sec] at an earlier point.  No assumption on the
    order of the timestamps is needed. *)
Theorem next_sec_non_decreasing (cat : Catalog) :
  (forall st (fr : Frame) st',
      step cat st fr = Some st' -> next_sec st <= next_sec st') /\
  (forall st sec (cf : ClipFrame) st',
      examined st sec -> step cat st (sec, cf) = Some st' ->
      next_sec st <= sec /\ sec <= next_sec st') /\
  (forall (frames1 frames2 : list Frame) st1 st2,
      run cat initial_state frames1 = Some st1 ->
      run cat st1 frames2 = Some st2 ->
      next_sec st1 <= next_sec st2).
Proof.
  split; [apply step_next_sec_mono|]. split.
  - intros st sec cf st' Ex S. split; [exact Ex|].
    rewrite (step_examined _ _ _ _ Ex) in S.
    apply examine_next_sec in S. lra.
  - intros frames1 frames2 st1 st2 _ R. eapply run_next_sec_mono; exact R.
Qed.

End CursorMonotone.

(** C5 on Scenario C: the cursor is at 6.25 after the frames of Scenario B
    and not before that at the end. *)
Lemma next_sec_non_decreasing_witness :
  @run SynImaging syn_catalog initial_state scenario_B = Some state_after_B /\
  exists st2,
    @run SynImaging syn_catalog state_after_B
         clause_frames = Some st2 /\
    next_sec state_after_B <= next_sec st2.
Proof.
  assert (R1 : @run SynImaging syn_catalog initial_state scenario_B
               = Some state_after_B) by (vm_compute; reflexivity).
  split; [exact R1|].
  eexists. split; [vm_compute; reflexivity|].
  apply (proj2 (proj2 (@next_sec_non_decreasing SynImaging syn_catalog))
               scenario_B clause_frames _ _ R1).
  vm_compute. reflexivity.
Defined.

(** ** How the match list evolves *)

Section MatchList.

Context `{IM : Imaging}.

Implicit Types (cat : Catalog) (st : ScanState) (sec : Q) (img : Image).

(* A step keeps the list, or completes its last match, or appends an open
   match. *)
Lemma step_matches_cases cat st sec (cf : ClipFrame) st' :
  step cat st (sec, cf) = Some st' ->
  (potential_matches st' = potential_matches st /\
   last_vs_sec st' = last_vs_sec st)
  \/
  (examined st sec /\ round_start_applies st sec /\
   clause_marker cat (clip_frame_to_image cf) /\
   last_vs_sec st' = last_vs_sec st /\
   exists ms m,
     potential_matches st = ms ++ [m] /\
     potential_matches st' =
       ms ++ [set_round_start
                sec (clause_img_hash_diff cat (clip_frame_to_image cf)) m])
  \/
  (examined st sec /\ ~ round_start_applies st sec /\
   exists new,
     potential_matches st' = potential_matches st ++ [new] /\
     vs_sec new = sec /\
     round_start_sec new = None /\ clause_hash_diff new = None).
Proof.
  unfold step. destruct (Qltb sec (next_sec st)) eqn:E; intro H.
  - injection H as <-. left. now split.
  - apply Qltb_false in E.
    destruct (examine_cases _ _ _ _ _ H)
      as [(R & D & ->)|[(N & C)|(E1 & E2 & _)]].
    + right; left. repeat split; try assumption; try apply R.
      destruct R as [Ne _].
      destruct (nonempty_snoc _ Ne) as (ms & m & Em).
      exists ms, m. split; [exact Em|]. simpl.
      now rewrite Em, update_last_snoc.
    + right; right. split; [exact E|]. split; [exact N|].
      destruct (burst_closure_spec _ _ _ _ C)
        as (v & ld & lk & rd & rk & _ & _ & _ & ->).
      eexists. simpl. repeat split.
    + left. now split.
Qed.

Lemma nth_error_snoc_old {A : Type} (l : list A) (x y : A) (i : nat) (a : A) :
  nth_error (l ++ [x]) i = Some a ->
  (i < List.length l)%nat ->
  nth_error (l ++ [y]) i = Some a.
Proof.
  intros H L. rewrite nth_error_app1 in * by exact L. exact H.
Qed.

Lemma nth_error_snoc_last {A : Type} (l : list A) (x : A) (i : nat) (a : A) :
  nth_error (l ++ [x]) i = Some a ->
  (List.length l <= i)%nat ->
  i = List.length l /\ a = x.
Proof.
  intros H L. rewrite nth_error_app2 in H by exact L.
  destruct (i - List.length l)%nat as [|j] eqn:E; simpl in H.
  - injection H as <-. split; [lia|reflexivity].
  - destruct j; discriminate.
Qed.

(* The step at which a round start appears on a match. *)
Lemma step_sets_round_start cat st sec (cf : ClipFrame) st' i m m' r :
  step cat st (sec, cf) = Some st' ->
  nth_error (potential_matches st) i = Some m ->
  nth_error (potential_matches st') i = Some m' ->
  round_start_sec m = None ->
  round_start_sec m' = Some r ->
  r = sec /\ examined st sec /\ round_start_applies st sec /\
  clause_marker cat (clip_frame_to_image cf) /\
  S i = List.length (potential_matches st) /\
  m' = set_round_start sec
         (clause_img_hash_diff cat (clip_frame_to_image cf)) m.
Proof.
  intros S Hm Hm' Hn Hr.
  destruct (step_matches_cases _ _ _ _ _ S)
    as [(E & _)|[(Ex & R & C & _ & ms & l & E & E')|(_ & _ & new & E' & _)]].
  - rewrite E in Hm'. congruence.
  - rewrite E in Hm. rewrite E' in Hm'.
    destruct (le_lt_dec (List.length ms) i) as [Le|Lt].
    + destruct (nth_error_snoc_last _ _ _ _ Hm Le) as [-> ->].
      destruct (nth_error_snoc_last _ _ _ _ Hm' Le) as [_ ->].
      simpl in Hr. injection Hr as <-.
      rewrite E, length_app. simpl.
      repeat split; try assumption; try apply R. lia.
    + pose proof (nth_error_snoc_old _ _ (set_round_start sec
        (clause_img_hash_diff cat (clip_frame_to_image cf)) l) _ _ Hm Lt).
      congruence.
  - rewrite E' in Hm'.
    assert (Lt : (i < List.length (potential_matches st))%nat)
      by (apply nth_error_Some; congruence).
    rewrite nth_error_app1 in Hm' by exact Lt. congruence.
Qed.

End MatchList.

(** ** Round starts are recorded inside the window *)

Section RoundStart.

Context `{IM : Imaging}.

(** C6: in the output of any scan, a match has no round start or one that
    is not before its [vs_sec].  A match enters the list without a round
    start, and at the step that sets it the value is the frame's
    timestamp, not before the match's [vs_sec], and less than
    [ROUND_START_MAX_OFFSET_SECS] after [last_vs_sec].  No assumption on
    the order of the timestamps is needed. *)
Theorem round_start_not_before_vs (cat : Catalog) :
  (forall (frames : list Frame) ms,
      scan cat frames = Some ms ->
      Forall (fun m =>
                round_start_sec m = None \/
                exists r, round_start_sec m = Some r /\ vs_sec m <= r) ms) /\
  (forall st sec (cf : ClipFrame) st' i m m' r,
      reachable cat st ->
      step cat st (sec, cf) = Some st' ->
      nth_error (potential_matches st) i = Some m ->
      nth_error (potential_matches st') i = Some m' ->
      round_start_sec m = None ->
      round_start_sec m' = Some r ->
      r = sec /\ vs_sec m' <= r /\
      r - last_vs_sec st < ROUND_START_MAX_OFFSET_SECS) /\
  (forall st sec (cf : ClipFrame) st' i m',
      step cat st (sec, cf) = Some st' ->
      nth_error (potential_matches st) i = None ->
      nth_error (potential_matches st') i = Some m' ->
      round_start_sec m' = None).
Proof.
  split; [|split].
  - intros frames ms H. unfold scan in H.
    destruct (run cat initial_state frames) as [st|] eqn:R; [|discriminate].
    simpl in H. injection H as <-.
    destruct (run_inv _ _ _ _ initial_inv R) as (_ & W & _).
    eapply Forall_impl; [|exact W].
    intros m Hm. unfold round_start_in_window in Hm.
    destruct (round_start_sec m) as [r|]; [right|now left].
    exists r. split; [reflexivity|apply Hm].
  - intros st sec cf st' i m m' r Re S Hm Hm' Hn Hr.
    destruct (step_sets_round_start _ _ _ _ _ _ _ _ _ S Hm Hm' Hn Hr)
      as (-> & _ & [_ W] & _).
    split; [reflexivity|]. split; [|exact W].
    destruct (reachable_inv _ _ (reachable_step _ _ _ _ Re S)) as (_ & F & _).
    rewrite Forall_forall in F.
    specialize (F m' (nth_error_In _ _ Hm')).
    unfold round_start_in_window in F. rewrite Hr in F. apply F.
  - intros st sec cf st' i m' S Hn Hm'.
    apply nth_error_None in Hn.
    destruct (step_matches_cases _ _ _ _ _ S)
      as [(E & _)
         |[(_ & _ & _ & _ & ms & l & E & E')
          |(_ & _ & new & E' & _ & N & _)]].
    + rewrite E in Hm'.
      assert (nth_error (potential_matches st) i = None)
        by now apply nth_error_None.
      congruence.
    + assert (nth_error (potential_matches st') i = None).
      { apply nth_error_None. rewrite E', length_app. simpl.
        rewrite E, length_app in Hn. simpl in Hn. exact Hn. }
      congruence.
    + rewrite E' in Hm'.
      destruct (nth_error_snoc_last _ _ _ _ Hm' Hn) as [_ ->]. exact N.
Qed.

(** C7: in every state a scan can be in, hence at every point of a scan
    and in its output, each match has both optional fields set or both
    unset. *)
Theorem optional_fields_set_together (cat : Catalog) (frames : list Frame)
    (st : ScanState) :
  run cat initial_state frames = Some st ->
  Forall both_or_neither (potential_matches st).
Proof.
  intro R. apply (run_inv _ _ _ _ initial_inv R).
Qed.

End RoundStart.

(** ** File names and roster keys *)

Lemma starts_with_spec (p l : list ascii) :
  starts_with p l = true <-> exists r, l = p ++ r.
Proof.
  revert l. induction p as [|a p IH]; intro l; simpl.
  - split; [intros _; now exists l|reflexivity].
  - destruct l as [|b l].
    + split; [discriminate|intros [r E]; discriminate].
    + rewrite andb_true_iff, Ascii.eqb_eq, IH. split.
      * intros [-> [r ->]]. now exists r.
      * intros [r E]. injection E as -> ->. split; [reflexivity|now exists r].
Qed.

Lemma endswith_spec (s suffix : string) :
  endswith s suffix = true <->
  exists body,
    list_ascii_of_string s = body ++ list_ascii_of_string suffix.
Proof.
  unfold endswith. rewrite starts_with_spec. split.
  - intros [r E]. exists (rev r).
    rewrite <- (rev_involutive (list_ascii_of_string s)), E, rev_app_distr.
    now rewrite rev_involutive.
  - intros [body E]. exists (rev body). now rewrite E, rev_app_distr.
Qed.

Lemma list_ascii_of_string_app (s1 s2 : string) :
  list_ascii_of_string (s1 ++ s2) =
  list_ascii_of_string s1 ++ list_ascii_of_string s2.
Proof.
  induction s1 as [|a s1 IH]; simpl; [reflexivity|]. now rewrite IH.
Qed.

Lemma rfind_dot_none (cs : list ascii) :
  forallb (fun c => negb (Ascii.eqb c dot)) cs = true -> rfind_dot cs = None.
Proof.
  induction cs as [|c cs IH]; simpl; [reflexivity|].
  rewrite andb_true_iff, negb_true_iff. intros [N F].
  now rewrite (IH F), N.
Qed.

Lemma rfind_dot_last (body ext : list ascii) :
  forallb (fun c => negb (Ascii.eqb c dot)) ext = true ->
  rfind_dot (body ++ dot :: ext) = Some (List.length body).
Proof.
  intro F. induction body as [|c body IH]; simpl.
  - now rewrite (rfind_dot_none _ F).
  - now rewrite IH.
Qed.

(* A name that ends in ".png" after something other than dots loses
   exactly the ".png". *)
Lemma splitext_root_png (p : string) (body : list ascii) :
  list_ascii_of_string p = body ++ list_ascii_of_string ".png" ->
  forallb (fun c => Ascii.eqb c dot) body = false ->
  splitext_root p = string_of_list_ascii body.
Proof.
  intros E N. unfold splitext_root. rewrite E.
  change (list_ascii_of_string ".png")
    with (dot :: list_ascii_of_string "png").
  rewrite rfind_dot_last by reflexivity.
  rewrite firstn_app, firstn_all, Nat.sub_diag. simpl firstn.
  now rewrite app_nil_r, N.
Qed.

(* The roster key of a file selected by [load_char_hashes]. *)
Lemma splitext_root_selected (suffix p : string) :
  forallb (fun c => Ascii.eqb c dot) (list_ascii_of_string suffix) = false ->
  endswith p (suffix ++ ".png") = true ->
  exists body,
    list_ascii_of_string p = body ++ list_ascii_of_string ".png" /\
    splitext_root p = string_of_list_ascii body.
Proof.
  intros G H. apply endswith_spec in H. destruct H as [b E].
  rewrite list_ascii_of_string_app, app_assoc in E.
  exists (b ++ list_ascii_of_string suffix). split; [exact E|].
  apply splitext_root_png; [exact E|].
  rewrite forallb_app, G. apply andb_false_r.
Qed.

Lemma splitext_root_inj (suffix p1 p2 : string) :
  forallb (fun c => Ascii.eqb c dot) (list_ascii_of_string suffix) = false ->
  endswith p1 (suffix ++ ".png") = true ->
  endswith p2 (suffix ++ ".png") = true ->
  splitext_root p1 = splitext_root p2 ->
  p1 = p2.
Proof.
  intros G H1 H2 E.
  destruct (splitext_root_selected _ _ G H1) as (b1 & L1 & R1).
  destruct (splitext_root_selected _ _ G H2) as (b2 & L2 & R2).
  rewrite R1, R2 in E.
  apply (f_equal list_ascii_of_string) in E.
  rewrite !list_ascii_of_string_of_list_ascii in E. subst b2.
  rewrite <- (string_of_list_ascii_of_string p1),
          <- (string_of_list_ascii_of_string p2).
  now rewrite L1, L2.
Qed.

Lemma dict_set_fresh {V : Type} (d : list (string * V)) (k : string) (v : V) :
  ~ In k (map fst d) -> dict_set d k v = d ++ [(k, v)].
Proof.
  intro N. unfold dict_set.
  destruct (existsb _ d) eqn:E; [|reflexivity].
  exfalso. apply N.
  apply existsb_exists in E. destruct E as ([k0 v0] & I & Q).
  simpl in Q. apply String.eqb_eq in Q. subst k0.
  apply (in_map fst) in I. exact I.
Qed.

Lemma permutation_filter {A : Type} (f : A -> bool) (l l' : list A) :
  Permutation l l' -> Permutation (filter f l) (filter f l').
Proof.
  induction 1 as [|x l l' _ IH|x y l|l1 l2 l3 _ IH1 _ IH2]; simpl.
  - constructor.
  - destruct (f x); [now constructor|exact IH].
  - destruct (f x), (f y); try reflexivity. apply perm_swap.
  - now transitivity (filter f l2).
Qed.

Section LoadingFacts.

Context `{IM : Imaging}.

Lemma load_fold (filename_suffix : string) (box : Box)
    (listing : list (string * Image)) :
  forall acc,
    NoDup (map fst acc ++
           map fst (map (roster_entry box)
                        (filter (selected filename_suffix) listing))) ->
    fold_left (load_char_hash filename_suffix box) listing acc =
    acc ++ map (roster_entry box) (filter (selected filename_suffix) listing).
Proof.
  induction listing as [|[fn img] listing IH]; intros acc N; simpl.
  - now rewrite app_nil_r.
  - unfold selected at 1. simpl fst.
    simpl in N. unfold selected at 1 in N. simpl fst in N.
    destruct (endswith fn filename_suffix) eqn:S.
    + simpl in N.
      rewrite dict_set_fresh.
      * rewrite IH.
        -- now rewrite <- app_assoc.
        -- rewrite map_app, <- app_assoc. exact N.
      * intro I. apply (NoDup_remove_2 _ _ _ N).
        apply in_or_app. now left.
    + apply IH. exact N.
Qed.

Lemma selected_keys_nodup (suffix : string) (box : Box)
    (listing : list (string * Image)) :
  forallb (fun c => Ascii.eqb c dot) (list_ascii_of_string suffix) = false ->
  NoDup (map fst listing) ->
  NoDup (map fst (map (roster_entry box)
                      (filter (selected (suffix ++ ".png")) listing))).
Proof.
  intros G N.
  rewrite map_map. simpl.
  assert (E : map (fun x : string * Image => splitext_root (fst x))
                  (filter (selected (suffix ++ ".png")) listing)
              = map splitext_root
                    (filter (fun fn => endswith fn (suffix ++ ".png"))
                            (map fst listing))).
  { rewrite filter_map_swap, map_map. reflexivity. }
  rewrite E.
  apply NoDup_map_NoDup_ForallPairs; [|now apply NoDup_filter].
  intros p1 p2 I1 I2 Q.
  apply filter_In in I1, I2.
  apply (splitext_root_inj suffix); tauto.
Qed.

(* With distinct file names, the roster is one entry per selected file, in
   listing order. *)
Lemma load_char_hashes_entries (listing : list (string * Image))
    (suffix : string) :
  forallb (fun c => Ascii.eqb c dot) (list_ascii_of_string suffix) = false ->
  NoDup (map fst listing) ->
  load_char_hashes listing suffix =
  map (roster_entry (if String.eqb suffix "-left" then CHAR_LEFT_IMAGE_BOX
              else CHAR_RIGHT_IMAGE_BOX))
      (filter (selected (suffix ++ ".png")) listing).
Proof.
  intros G N. unfold load_char_hashes.
  rewrite load_fold; [reflexivity|].
  simpl. now apply selected_keys_nodup.
Qed.

(* Another enumeration order of the same directory permutes the roster. *)
Lemma load_char_hashes_perm (listing listing' : list (string * Image))
    (suffix : string) :
  forallb (fun c => Ascii.eqb c dot) (list_ascii_of_string suffix) = false ->
  NoDup (map fst listing) ->
  Permutation listing listing' ->
  Permutation (load_char_hashes listing suffix)
              (load_char_hashes listing' suffix).
Proof.
  intros G N P.
  assert (N' : NoDup (map fst listing')).
  { eapply Permutation_NoDup; [|exact N]. now apply Permutation_map. }
  rewrite !load_char_hashes_entries by assumption.
  apply Permutation_map. now apply permutation_filter.
Qed.

Lemma load_catalog_roster_order (data data' : DataDir) :
  vs_png data = vs_png data' ->
  clause_png data = clause_png data' ->
  NoDup (map fst (chars data)) ->
  Permutation (chars data) (chars data') ->
  same_up_to_roster_order (load_catalog data) (load_catalog data').
Proof.
  intros EV EC N P. unfold same_up_to_roster_order, load_catalog. simpl.
  rewrite EV, EC. repeat split.
  - now apply load_char_hashes_perm.
  - now apply load_char_hashes_perm.
Qed.

End LoadingFacts.

(** Scenario C evaluated: the marker at 12.0 completes the match of
    Scenario B; the later marker frames are skipped (12.5 and 23.0 lie
    before the new [next_sec] of 25.75) or fall outside the window
    (26.0). *)
Lemma scenario_C_round_start :
  @scan SynImaging syn_catalog scenario_C
  = Some [@set_round_start SynImaging 12 0 match_of_B].
Proof. vm_compute. reflexivity. Qed.

Lemma state_after_B_reachable : @reachable SynImaging syn_catalog state_after_B.
Proof. exists scenario_B. vm_compute. reflexivity. Qed.

(** C6 on Scenario C. *)
Lemma round_start_not_before_vs_witness :
  exists ms,
    @scan SynImaging syn_catalog scenario_C = Some ms /\
    Forall (fun m =>
              round_start_sec m = None \/
              exists r, round_start_sec m = Some r /\ vs_sec m <= r) ms.
Proof.
  eexists. split; [vm_compute; reflexivity|].
  apply (proj1 (@round_start_not_before_vs SynImaging syn_catalog)
               scenario_C).
  vm_compute. reflexivity.
Defined.

(** C7 on Scenario C. *)
Lemma optional_fields_set_together_witness :
  exists st,
    @run SynImaging syn_catalog initial_state scenario_C = Some st /\
    Forall both_or_neither (potential_matches st).
Proof.
  eexists. split; [vm_compute; reflexivity|].
  apply (@optional_fields_set_together SynImaging syn_catalog scenario_C).
  vm_compute. reflexivity.
Defined.

(** ** Independence of the roster order *)

Section RosterOrder.

Context `{IM : Imaging}.

Lemma burst_closure_roster_order (cat cat' : Catalog) (st : ScanState)
    (sec : Q) :
  same_up_to_roster_order cat cat' ->
  burst_closure cat st sec = burst_closure cat' st sec.
Proof.
  intros (_ & _ & PL & PR). unfold burst_closure.
  destruct (nth_error _ _) as [v|]; [|reflexivity].
  now rewrite (classify_perm _ _ _ PL), (classify_perm _ _ _ PR).
Qed.

Lemma step_roster_order (cat cat' : Catalog) (st : ScanState) (fr : Frame) :
  same_up_to_roster_order cat cat' -> step cat st fr = step cat' st fr.
Proof.
  intro H. destruct fr as [sec cf].
  pose proof (burst_closure_roster_order cat cat' st sec H) as B.
  destruct H as (EV & EC & _ & _).
  unfold step, examine, select_branch, round_start_check,
    vs_img_hash_diff, clause_img_hash_diff.
  now rewrite EV, EC, B.
Qed.

(** C8: the scan is a function of the frame sequence and the catalog, and
    its result does not depend on the order in which the roster entries
    were loaded: two catalogs with the same marker hashes whose rosters
    are permutations of each other give the same match sequence (or both
    abort), and so do the catalogs loaded from two enumerations of the
    same data directory. *)
Theorem scan_deterministic :
  (forall (cat cat' : Catalog) (frames : list Frame),
      same_up_to_roster_order cat cat' ->
      scan cat frames = scan cat' frames) /\
  (forall (data data' : DataDir) (frames : list Frame),
      vs_png data = vs_png data' ->
      clause_png data = clause_png data' ->
      NoDup (map fst (chars data)) ->
      Permutation (chars data) (chars data') ->
      scan (load_catalog data) frames = scan (load_catalog data') frames).
Proof.
  assert (R : forall (cat cat' : Catalog) (frames : list Frame),
             same_up_to_roster_order cat cat' ->
             scan cat frames = scan cat' frames).
  { intros cat cat' frames H. unfold scan. f_equal.
    generalize initial_state.
    induction frames as [|fr frames IH]; intro st; simpl; [reflexivity|].
    rewrite (step_roster_order cat cat' st fr H).
    destruct (step cat' st fr); [apply IH|reflexivity]. }
  split; [exact R|].
  intros data data' frames EV EC N P.
  apply R. now apply load_catalog_roster_order.
Qed.

(** C9: the answer of the lookup is an entry at minimal distance, and
    among the entries at that distance it has the smallest key in the
    lexicographic order of strings; the answer is the same for every
    permutation of the roster, and for the rosters loaded from two
    enumerations of the same directory. *)
Theorem classifier_tie_break :
  (forall (img : Image) (roster : list (string * ImageHash)) (d : nat)
          (k : string),
      classify img roster = Some (d, k) ->
      (exists h, In (k, h) roster /\ hash_sub (dhash img) h = d) /\
      (forall k' h',
          In (k', h') roster -> (d <= hash_sub (dhash img) h')%nat) /\
      (forall k' h',
          In (k', h') roster -> hash_sub (dhash img) h' = d ->
          String.leb k k' = true) /\
      (forall roster',
          Permutation roster roster' -> classify img roster' = Some (d, k))) /\
  (forall (img : Image) (listing listing' : list (string * Image))
          (suffix : string),
      suffix = "-left"%string \/ suffix = "-right"%string ->
      NoDup (map fst listing) ->
      Permutation listing listing' ->
      classify img (load_char_hashes listing' suffix) =
      classify img (load_char_hashes listing suffix)).
Proof.
  split.
  - intros img roster d k H. repeat split.
    + destruct (classify_attains _ _ _ _ H) as (h & I & E).
      exists h. now split.
    + exact (classify_minimal _ _ _ _ H).
    + exact (classify_smallest_key _ _ _ _ H).
    + intros roster' P. now rewrite <- (classify_perm _ _ _ P).
  - intros img listing listing' suffix S N P.
    symmetry. apply classify_perm.
    apply load_char_hashes_perm; try assumption.
    destruct S as [-> | ->]; reflexivity.
Qed.

End RosterOrder.

Lemma load_syn_catalog : @load_catalog SynImaging syn_data = syn_catalog.
Proof. vm_compute. reflexivity. Qed.

Lemma load_syn_catalog_reordered :
  @load_catalog SynImaging syn_data_reordered = syn_catalog_reordered.
Proof. vm_compute. reflexivity. Qed.

Lemma syn_data_perm :
  Permutation (chars syn_data) (chars syn_data_reordered).
Proof.
  apply NoDup_Permutation.
  - apply (NoDup_map_inv fst). vm_compute.
    repeat constructor; simpl; intuition discriminate.
  - apply (NoDup_map_inv fst). vm_compute.
    repeat constructor; simpl; intuition discriminate.
  - intro x. simpl. intuition.
Qed.

Lemma syn_data_names_nodup : NoDup (map fst (chars syn_data)).
Proof. vm_compute. repeat constructor; simpl; intuition discriminate. Qed.

(** C8 on Scenario C, with the data directory enumerated in two orders:
    the loaded rosters differ in order, the match sequences do not. *)
Lemma scan_deterministic_witness :
  NoDup (map fst (chars syn_data)) /\
  Permutation (chars syn_data) (chars syn_data_reordered) /\
  CHAR_LEFT_HASHES (@load_catalog SynImaging syn_data) <>
  CHAR_LEFT_HASHES (@load_catalog SynImaging syn_data_reordered) /\
  @scan SynImaging (load_catalog syn_data) scenario_C
  = @scan SynImaging (load_catalog syn_data_reordered) scenario_C.
Proof.
  split; [exact syn_data_names_nodup|].
  split; [exact syn_data_perm|].
  split; [vm_compute; discriminate|].
  exact (proj2 (@scan_deterministic SynImaging) syn_data syn_data_reordered
               scenario_C eq_refl eq_refl syn_data_names_nodup syn_data_perm).
Defined.

(** C9 on the left region of [vs_b]: "linne-left" and "hyde-left" are both
    one bit away and "linne-left" is listed first; the answer is
    "hyde-left". *)
Lemma classifier_tie_break_witness :
  @classify SynImaging (SynRegion (bits 9)) (CHAR_LEFT_HASHES syn_catalog)
    = Some (1%nat, "hyde-left"%string) /\
  (forall k' h',
      In (k', h') (CHAR_LEFT_HASHES syn_catalog) ->
      hamming (bits 9) h' = 1%nat ->
      String.leb "hyde-left" k' = true).
Proof.
  assert (H : @classify SynImaging (SynRegion (bits 9))
                (CHAR_LEFT_HASHES syn_catalog)
              = Some (1%nat, "hyde-left"%string))
    by (vm_compute; reflexivity).
  split; [exact H|].
  exact (proj1 (proj2 (proj2
           (proj1 (@classifier_tie_break SynImaging) _ _ _ _ H)))).
Defined.

(** * Further properties of the scan *)

(** ** The five outcomes of an examined frame *)

Section Outcomes.

Context `{IM : Imaging}.

Implicit Types (cat : Catalog) (st : ScanState) (sec : Q) (img : Image).

Lemma examine_full cat st sec img st' :
  examine cat st sec img = Some st' ->
  (round_start_applies st sec /\ clause_marker cat img /\
   st' = {| next_sec := py_max (last_vs_sec st + ROUND_START_MAX_OFFSET_SECS)
                               (sec + SKIP_SECS);
            last_vs_sec := last_vs_sec st;
            vs_clip_frame_imgs := vs_clip_frame_imgs st;
            potential_matches :=
              update_last (set_round_start sec (clause_img_hash_diff cat img))
                          (potential_matches st) |})
  \/
  (round_start_applies st sec /\ ~ clause_marker cat img /\
   st' = with_next_sec st (sec + SEEK_SECS))
  \/
  (~ round_start_applies st sec /\ vs_marker cat img /\
   st' = vs_collection st sec img)
  \/
  (~ round_start_applies st sec /\ ~ vs_marker cat img /\ burst_pending st /\
   burst_closure cat st sec = Some st')
  \/
  (~ round_start_applies st sec /\ ~ vs_marker cat img /\
   ~ burst_pending st /\
   st' = with_next_sec st (sec + SEEK_SECS)).
Proof.
  unfold examine.
  destruct (select_branch cat st sec img) eqn:B; intro H.
  - apply select_round_start in B. injection H as <-.
    unfold round_start_check.
    destruct (_ <? _)%nat eqn:D.
    + left. apply Nat.ltb_lt in D. repeat split; solve [apply B | exact D].
    + right; left. apply Nat.ltb_ge in D.
      split; [exact B|]. split; [|reflexivity].
      unfold clause_marker. lia.
  - apply select_vs_collection in B. injection H as <-.
    right; right; left. tauto.
  - apply select_burst_closure in B.
    right; right; right; left. tauto.
  - apply select_idle in B. injection H as <-.
    right; right; right; right. tauto.
Qed.

Lemma map_vs_sec_update_last sec d (ms : list PotentialMatch) :
  map vs_sec (update_last (set_round_start sec d) ms) = map vs_sec ms.
Proof.
  destruct ms as [|m ms]; [reflexivity|].
  destruct (nonempty_snoc (m :: ms)) as (l & x & E); [discriminate|].
  rewrite E, update_last_snoc, !map_app. reflexivity.
Qed.

Lemma spaced_snoc (ts : list Q) (t t' : Q) :
  spaced (ts ++ [t]) ->
  t + ROUND_START_MAX_OFFSET_SECS + SEEK_SECS <= t' ->
  spaced ((ts ++ [t]) ++ [t']).
Proof.
  induction ts as [|a ts IH]; intros S L.
  - simpl. split; [exact L|exact I].
  - destruct ts as [|b ts].
    + simpl in *. tauto.
    + simpl in S. destruct S as [Lab S].
      change (a + ROUND_START_MAX_OFFSET_SECS + SEEK_SECS <= b /\
              spaced (((b :: ts) ++ [t]) ++ [t'])).
      split; [exact Lab|]. apply IH; assumption.
Qed.

(* In a spaced list later entries are later in time. *)
Lemma spaced_nth (ts : list Q) :
  spaced ts ->
  forall i j a b,
    (i < j)%nat -> nth_error ts i = Some a -> nth_error ts j = Some b ->
    a + ROUND_START_MAX_OFFSET_SECS + SEEK_SECS <= b.
Proof.
  induction ts as [|t ts IH]; intros S i j a b Lt Ha Hb.
  - destruct i; discriminate.
  - assert (Srest : spaced ts).
    { destruct ts as [|t' ts]; [exact I|apply S]. }
    destruct j as [|j]; [lia|].
    destruct i as [|i].
    + simpl in Ha. injection Ha as <-. simpl in Hb.
      destruct ts as [|t' ts]; [destruct j; discriminate|].
      destruct S as [L _].
      destruct j as [|j].
      * simpl in Hb. injection Hb as <-. exact L.
      * assert (M : t' + ROUND_START_MAX_OFFSET_SECS + SEEK_SECS <= b).
        { apply (IH Srest 0%nat (S j)); [lia|reflexivity|exact Hb]. }
        unfold ROUND_START_MAX_OFFSET_SECS, SEEK_SECS in *. lra.
    + simpl in Ha, Hb. apply (IH Srest i j); [lia|assumption|assumption].
Qed.

End Outcomes.

(** ** Chronology of the recorded matches *)

Section ChronologyFacts.

Context `{IM : Imaging}.

Implicit Types (cat : Catalog) (st : ScanState) (sec : Q) (img : Image).

Lemma initial_chronology : chronology_inv initial_state.
Proof.
  unfold chronology_inv. simpl.
  split; [lra|]. split; [exact I|]. split; [constructor|].
  split; [constructor|]. split.
  - intros ms m E. destruct ms; discriminate.
  - intros N. contradiction.
Qed.

Lemma examine_chronology cat st sec img st' :
  scan_inv st -> chronology_inv st -> examined st sec ->
  examine cat st sec img = Some st' -> chronology_inv st'.
Proof.
  intros (_ & _ & Hc) (Hn & Hs & Hp & Hr & Hl & Hg) Ex H.
  unfold examined in Ex.
  destruct (examine_full _ _ _ _ _ H)
    as [(R & D & ->)
       |[(R & D & ->)
        |[(N & V & ->)
         |[(N & V & P & C)|(N & V & P & ->)]]]].
  - (* round start confirmed *)
    destruct R as [Ne W].
    destruct (nonempty_snoc _ Ne) as (ms & m & Em).
    destruct (Hc ms m Em) as (L1 & _ & _).
    pose proof (Hl ms m Em) as L2.
    pose proof (py_max_right (last_vs_sec st + ROUND_START_MAX_OFFSET_SECS)
                             (sec + SKIP_SECS)) as M.
    unfold chronology_inv. simpl.
    rewrite map_vs_sec_update_last.
    rewrite Em, update_last_snoc. rewrite Em in Hp, Hr.
    apply Forall_app in Hp. apply Forall_app in Hr.
    destruct Hp as [Hp1 Hp2]. destruct Hr as [Hr1 Hr2].
    inversion Hp2 as [|? ? Hpm _]; subst.
    split; [unfold SKIP_SECS in *; lra|].
    split; [rewrite <- Em; exact Hs|].
    split; [apply Forall_app; split; [exact Hp1|]; now repeat constructor|].
    split.
    { apply Forall_app. split; [exact Hr1|].
      constructor; [|constructor].
      simpl. intros r E. injection E as <-. lra. }
    split.
    { intros ms' m' E'. apply app_inj_tail in E'. destruct E' as [_ <-].
      simpl. unfold SKIP_SECS, SEEK_SECS in *. lra. }
    intros _ Pn. rewrite Em in Hg.
    assert (G : last_vs_sec st + ROUND_START_MAX_OFFSET_SECS + SEEK_SECS
                <= next_sec st).
    { apply Hg; [destruct ms; discriminate|exact Pn]. }
    unfold SKIP_SECS, SEEK_SECS in *. lra.
  - (* marker not found *)
    unfold chronology_inv. simpl.
    split; [unfold SEEK_SECS; lra|].
    split; [exact Hs|]. split; [exact Hp|]. split; [exact Hr|]. split.
    + intros ms m E. specialize (Hl ms m E). unfold SEEK_SECS in *. lra.
    + intros Ne Pn. specialize (Hg Ne Pn). unfold SEEK_SECS in *. lra.
  - (* VS frame buffered *)
    unfold chronology_inv. simpl.
    split; [unfold SEEK_SECS; lra|].
    split; [exact Hs|]. split; [exact Hp|]. split; [exact Hr|]. split.
    + intros ms m E. specialize (Hl ms m E). unfold SEEK_SECS in *. lra.
    + intros Ne _.
      destruct (Qlt_le_dec (sec - last_vs_sec st) ROUND_START_MAX_OFFSET_SECS)
        as [W|W].
      * exfalso. apply N. now split.
      * unfold SEEK_SECS in *. lra.
  - (* burst closed *)
    destruct (burst_closure_spec _ _ _ _ C)
      as (v & ld & lk & rd & rk & _ & _ & _ & ->).
    unfold chronology_inv. simpl.
    split; [unfold SEEK_SECS; lra|].
    split.
    { rewrite map_app. simpl.
      destruct (potential_matches st) as [|m0 ms0] eqn:Em; [exact I|].
      destruct (nonempty_snoc (m0 :: ms0)) as (ms & m & E); [discriminate|].
      rewrite E in *. rewrite map_app. simpl.
      apply spaced_snoc.
      - rewrite map_app in Hs. exact Hs.
      - destruct (Hc ms m Em) as (L1 & _ & _).
        assert (G : last_vs_sec st + ROUND_START_MAX_OFFSET_SECS + SEEK_SECS
                    <= next_sec st).
        { apply Hg; [destruct ms; discriminate|exact P]. }
        rewrite <- L1. lra. }
    split.
    { apply Forall_app. split; [exact Hp|].
      repeat constructor; simpl; lra. }
    split.
    { apply Forall_app. split; [exact Hr|].
      constructor; [|constructor]. simpl. discriminate. }
    split.
    { intros ms' m' E'. apply app_inj_tail in E'. destruct E' as [_ <-].
      simpl. lra. }
    intros _ Pn. contradiction.
  - (* idle *)
    unfold chronology_inv. simpl.
    split; [unfold SEEK_SECS; lra|].
    split; [exact Hs|]. split; [exact Hp|]. split; [exact Hr|]. split.
    + intros ms m E. specialize (Hl ms m E). unfold SEEK_SECS in *. lra.
    + intros Ne Pn. specialize (Hg Ne Pn). unfold SEEK_SECS in *. lra.
Qed.

Lemma step_chronology cat st (fr : Frame) st' :
  scan_inv st -> chronology_inv st ->
  step cat st fr = Some st' -> chronology_inv st'.
Proof.
  intros I J. destruct fr as [sec cf]. unfold step.
  destruct (Qltb sec (next_sec st)) eqn:E; intro H.
  - now injection H as <-.
  - apply Qltb_false in E. eapply examine_chronology; eassumption.
Qed.

Lemma run_chronology cat (frames : list Frame) :
  forall st st',
    scan_inv st -> chronology_inv st ->
    run cat st frames = Some st' -> chronology_inv st'.
Proof.
  induction frames as [|fr frames IH]; simpl; intros st st' I J H.
  - now injection H as <-.
  - destruct (step cat st fr) as [st1|] eqn:S; [|discriminate].
    apply (IH st1 st'); [|eapply step_chronology; eassumption|exact H].
    eapply step_inv; eassumption.
Qed.

End ChronologyFacts.

(** ** Where recorded images and keys come from *)

Section Provenance.

Context `{IM : Imaging}.

Implicit Types (cat : Catalog) (st : ScanState) (sec : Q) (img : Image).

Lemma vs_frame_before_mono cat (fs fs' : list Frame) (t t' : Q) img :
  vs_frame_before cat fs t img ->
  incl fs fs' -> t <= t' ->
  vs_frame_before cat fs' t' img.
Proof.
  intros (sec & cf & I & E & V & L) Inc Le.
  exists sec, cf. repeat split; try assumption.
  - now apply Inc.
  - lra.
Qed.

Lemma initial_provenance cat : provenance_inv cat [] initial_state.
Proof. unfold provenance_inv. simpl. repeat split; constructor. Qed.

Lemma classified_set_round_start cat sec d (m : PotentialMatch) :
  classified cat m -> classified cat (set_round_start sec d m).
Proof. intro C. exact C. Qed.

Lemma step_provenance cat (pre : list Frame) st (fr : Frame) st' :
  provenance_inv cat pre st ->
  step cat st fr = Some st' ->
  provenance_inv cat (pre ++ [fr]) st'.
Proof.
  intros (Pb & Pm & Pc) S.
  pose proof (step_next_sec_mono _ _ _ _ S) as Mono.
  assert (Inc : incl pre (pre ++ [fr])) by (apply incl_appl, incl_refl).
  assert (Pb' : Forall (vs_frame_before cat (pre ++ [fr]) (next_sec st'))
                       (vs_clip_frame_imgs st)).
  { eapply Forall_impl; [|exact Pb].
    intros img Hi. eapply vs_frame_before_mono; eassumption. }
  assert (Pm' : Forall (fun m => vs_frame_before cat (pre ++ [fr]) (vs_sec m)
                                                 (vs_clip_frame_img m))
                       (potential_matches st)).
  { eapply Forall_impl; [|exact Pm].
    intros m Hi. eapply vs_frame_before_mono; [exact Hi|exact Inc|lra]. }
  destruct fr as [sec cf]. unfold step in S.
  destruct (Qltb sec (next_sec st)) eqn:E.
  { injection S as <-. repeat split; assumption. }
  apply Qltb_false in E.
  destruct (examine_full _ _ _ _ _ S)
    as [(R & D & ->)
       |[(R & D & ->)
        |[(N & V & ->)
         |[(N & V & P & C)|(N & V & P & ->)]]]].
  - (* round start confirmed *)
    destruct R as [Ne W].
    destruct (nonempty_snoc _ Ne) as (ms & m & Em).
    unfold provenance_inv. simpl. simpl in Pb'.
    rewrite Em, update_last_snoc. rewrite Em in Pm', Pc.
    apply Forall_app in Pm'. apply Forall_app in Pc.
    destruct Pm' as [Pm1 Pm2]. destruct Pc as [Pc1 Pc2].
    inversion Pm2 as [|? ? Hm _]; subst.
    inversion Pc2 as [|? ? Hc _]; subst.
    split; [exact Pb'|]. split.
    + apply Forall_app. split; [exact Pm1|].
      constructor; [exact Hm|constructor].
    + apply Forall_app. split; [exact Pc1|].
      constructor; [exact Hc|constructor].
  - repeat split; assumption.
  - (* VS frame buffered *)
    unfold provenance_inv. simpl. simpl in Pb'.
    split; [|split; assumption].
    apply Forall_app. split; [exact Pb'|].
    constructor; [|constructor].
    exists sec, cf. repeat split.
    + apply in_or_app. right. now left.
    + exact V.
    + unfold SEEK_SECS. lra.
  - (* burst closed *)
    destruct (burst_closure_spec _ _ _ _ C)
      as (v & ld & lk & rd & rk & Hv & CL & CR & ->).
    unfold provenance_inv. simpl.
    split; [constructor|]. split.
    + apply Forall_app. split; [exact Pm'|].
      constructor; [|constructor]. simpl.
      rewrite Forall_forall in Pb.
      eapply vs_frame_before_mono;
        [apply Pb; eapply nth_error_In; exact Hv|exact Inc|exact E].
    + apply Forall_app. split; [exact Pc|].
      constructor; [|constructor]. split; assumption.
  - repeat split; assumption.
Qed.

Lemma run_provenance cat (frames : list Frame) :
  forall (pre : list Frame) st st',
    provenance_inv cat pre st ->
    run cat st frames = Some st' ->
    provenance_inv cat (pre ++ frames) st'.
Proof.
  induction frames as [|fr frames IH]; simpl; intros pre st st' P H.
  - injection H as <-. now rewrite app_nil_r.
  - destruct (step cat st fr) as [st1|] eqn:S; [|discriminate].
    replace (pre ++ fr :: frames) with ((pre ++ [fr]) ++ frames)
      by (now rewrite <- app_assoc).
    apply (IH _ st1 st'); [|exact H].
    eapply step_provenance; eassumption.
Qed.

End Provenance.

(** ** When the scan aborts *)

Section Abort.

Context `{IM : Imaging}.

Implicit Types (cat : Catalog) (st : ScanState) (sec : Q) (img : Image).





End Abort.

(** ** Counting and replaying frames *)

Section Counting.

Context `{IM : Imaging}.

Implicit Types (cat : Catalog) (st : ScanState) (sec : Q) (img : Image).

(* Two frames per recorded match, one for a burst in progress. *)
Let weight (st : ScanState) : nat :=
  (2 * List.length (potential_matches st)
   + if truthy (vs_clip_frame_imgs st) then 1 else 0)%nat.

Lemma step_weight cat st (fr : Frame) st' :
  step cat st fr = Some st' -> (weight st' <= weight st + 1)%nat.
Proof.
  destruct fr as [sec cf]. unfold step, weight.
  destruct (Qltb sec (next_sec st)); intro H.
  - injection H as <-. lia.
  - destruct (examine_full _ _ _ _ _ H)
      as [(R & D & ->)
         |[(R & D & ->)
          |[(N & V & ->)
           |[(N & V & P & C)|(N & V & P & ->)]]]];
      simpl.
    + destruct R as [Ne _].
      destruct (nonempty_snoc _ Ne) as (ms & m & ->).
      rewrite update_last_snoc, !length_app. simpl. lia.
    + lia.
    + destruct (vs_clip_frame_imgs st); simpl; lia.
    + destruct (burst_closure_spec _ _ _ _ C)
        as (v & ld & lk & rd & rk & _ & _ & _ & ->).
      simpl. rewrite length_app. simpl.
      apply truthy_true in P. rewrite P. lia.
    + lia.
Qed.

Lemma run_weight cat (frames : list Frame) :
  forall st st',
    run cat st frames = Some st' ->
    (weight st' <= weight st + List.length frames)%nat.
Proof.
  induction frames as [|fr frames IH]; intros st st' H; cbn [run] in H.
  - injection H as <-. lia.
  - destruct (step cat st fr) as [st1|] eqn:S; [|discriminate].
    apply step_weight in S. apply IH in H. simpl List.length. lia.
Qed.

Lemma run_two_frames_per_match cat (frames : list Frame) st' :
  run cat initial_state frames = Some st' ->
  (2 * List.length (potential_matches st') <= List.length frames)%nat.
Proof.
  intro H. apply run_weight in H. unfold weight in H. simpl in H.
  destruct (truthy (vs_clip_frame_imgs st')); lia.
Qed.

(* Frames without the VS marker, seen with no match and an empty buffer,
   leave both empty. *)
Lemma run_no_vs cat (frames : list Frame) :
  forall st,
    Forall (fun fr => ~ vs_marker cat (clip_frame_to_image (snd fr))) frames ->
    potential_matches st = [] -> vs_clip_frame_imgs st = [] ->
    exists st',
      run cat st frames = Some st' /\
      potential_matches st' = [] /\ vs_clip_frame_imgs st' = [].
Proof.
  induction frames as [|[sec cf] frames IH]; intros st F Em Eb; cbn [run].
  - now exists st.
  - inversion F as [|? ? V Frest]; subst. simpl in V.
    assert (S : exists st1, step cat st (sec, cf) = Some st1 /\
                            potential_matches st1 = [] /\
                            vs_clip_frame_imgs st1 = []).
    { unfold step. destruct (Qltb sec (next_sec st)); [now exists st|].
      rewrite examine_idle.
      - eexists. split; [reflexivity|]. now split.
      - intros [Ne _]. contradiction.
      - exact V.
      - unfold burst_pending. intro P. contradiction. }
    destruct S as (st1 & -> & Em1 & Eb1). now apply IH.
Qed.

Lemma step_same_vs_screen cat st (fr : Frame) st' i m :
  step cat st fr = Some st' ->
  nth_error (potential_matches st) i = Some m ->
  exists m',
    nth_error (potential_matches st') i = Some m' /\ same_vs_screen m m'.
Proof.
  intros S Hm. destruct fr as [sec cf].
  assert (Refl : same_vs_screen m m) by (repeat split).
  destruct (step_matches_cases _ _ _ _ _ S)
    as [(E & _)|[(_ & _ & _ & _ & ms & l & E & E')|(_ & _ & new & E' & _)]].
  - exists m. rewrite E. now split.
  - rewrite E in Hm. rewrite E'.
    destruct (le_lt_dec (List.length ms) i) as [Le|Lt].
    + destruct (nth_error_snoc_last _ _ _ _ Hm Le) as [-> ->].
      eexists. split.
      * rewrite nth_error_app2 by lia. rewrite Nat.sub_diag. reflexivity.
      * repeat split.
    + exists m. split; [|exact Refl].
      eapply nth_error_snoc_old; eassumption.
  - exists m. split; [|exact Refl]. rewrite E'.
    assert (Lt : (i < List.length (potential_matches st))%nat)
      by (apply nth_error_Some; congruence).
    now rewrite nth_error_app1 by exact Lt.
Qed.

Lemma same_vs_screen_trans (m1 m2 m3 : PotentialMatch) :
  same_vs_screen m1 m2 -> same_vs_screen m2 m3 -> same_vs_screen m1 m3.
Proof.
  unfold same_vs_screen.
  intros (A1 & A2 & A3 & A4 & A5 & A6) (B1 & B2 & B3 & B4 & B5 & B6).
  repeat split; congruence.
Qed.

Lemma run_same_vs_screen cat (frames : list Frame) :
  forall st st' i m,
    run cat st frames = Some st' ->
    nth_error (potential_matches st) i = Some m ->
    exists m',
      nth_error (potential_matches st') i = Some m' /\ same_vs_screen m m'.
Proof.
  induction frames as [|fr frames IH]; intros st st' i m H Hm; cbn [run] in H.
  - injection H as <-. exists m. split; [exact Hm|repeat split].
  - destruct (step cat st fr) as [st1|] eqn:S; [|discriminate].
    destruct (step_same_vs_screen _ _ _ _ _ _ S Hm) as (m1 & H1 & E1).
    destruct (IH _ _ _ _ H H1) as (m' & H' & E').
    exists m'. split; [exact H'|]. eapply same_vs_screen_trans; eassumption.
Qed.

Lemma run_none_split cat (frames : list Frame) :
  forall st,
    run cat st frames = None <->
    exists pre fr post st1,
      frames = pre ++ fr :: post /\
      run cat st pre = Some st1 /\
      step cat st1 fr = None.
Proof.
  induction frames as [|fr frames IH]; intro st; cbn [run].
  - split; [discriminate|].
    intros (pre & fr & post & st1 & E & _). destruct pre; discriminate.
  - destruct (step cat st fr) as [st1|] eqn:S.
    + rewrite IH. split.
      * intros (pre & fr' & post & st2 & -> & R & N).
        exists (fr :: pre), fr', post, st2.
        split; [reflexivity|]. cbn [run]. rewrite S. now split.
      * intros (pre & fr' & post & st2 & E & R & N).
        destruct pre as [|f pre].
        -- simpl in E. injection E as <- <-. simpl in R.
           injection R as <-. congruence.
        -- simpl in E. injection E as <- ->.
           cbn [run] in R. rewrite S in R.
           now exists pre, fr', post, st2.
    + split; [|reflexivity]. intros _.
      exists [], fr, frames, st. now repeat split.
Qed.

End Counting.

(** ** Properties of the scan beyond the claims *)

Section ScanExtras.

Context `{IM : Imaging}.

(** X3: the matches of a scan are in chronological order and a window
    apart: a later match has a later [vs_sec], at least
    ROUND_START_MAX_OFFSET_SECS after that of an earlier one, and the
    round start of the earlier one, when recorded, lies before the later
    [vs_sec].  So no second match is ever opened inside the window of a
    match. *)
Theorem matches_chronological (cat : Catalog) (frames : list Frame)
    (ms : list PotentialMatch) (i j : nat) (m m' : PotentialMatch) :
  scan cat frames = Some ms ->
  (i < j)%nat ->
  nth_error ms i = Some m ->
  nth_error ms j = Some m' ->
  vs_sec m < vs_sec m' /\
  ROUND_START_MAX_OFFSET_SECS <= vs_sec m' - vs_sec m /\
  (forall r, round_start_sec m = Some r -> r < vs_sec m').
Proof.
  intros H Lt Hi Hj. unfold scan in H.
  destruct (run cat initial_state frames) as [st|] eqn:R; [|discriminate].
  simpl in H. injection H as <-.
  pose proof (run_inv _ _ _ _ initial_inv R) as (_ & W & _).
  pose proof (run_chronology _ _ _ _ initial_inv initial_chronology R)
    as (_ & Sp & _).
  assert (G : vs_sec m + ROUND_START_MAX_OFFSET_SECS + SEEK_SECS
              <= vs_sec m').
  { apply (spaced_nth _ Sp i j); [exact Lt| |];
      now apply map_nth_error. }
  unfold ROUND_START_MAX_OFFSET_SECS, SEEK_SECS in *.
  split; [lra|]. split; [lra|].
  intros r Hr. rewrite Forall_forall in W.
  specialize (W m (nth_error_In _ _ Hi)).
  unfold round_start_in_window in W. rewrite Hr in W.
  unfold ROUND_START_MAX_OFFSET_SECS in W. lra.
Qed.

(** X5: the match list is append-only: a match recorded at some index
    stays at that index for the rest of the scan, with the same [vs_sec],
    representative frame, keys and distances; only its two optional fields
    can change. *)
Theorem recorded_matches_keep_their_place (cat : Catalog) (st : ScanState)
    (frames : list Frame) (st' : ScanState) (i : nat) (m : PotentialMatch) :
  run cat st frames = Some st' ->
  nth_error (potential_matches st) i = Some m ->
  exists m',
    nth_error (potential_matches st') i = Some m' /\
    vs_sec m' = vs_sec m /\
    vs_clip_frame_img m' = vs_clip_frame_img m /\
    left_char_key m' = left_char_key m /\
    right_char_key m' = right_char_key m /\
    left_hash_diff m' = left_hash_diff m /\
    right_hash_diff m' = right_hash_diff m.
Proof.
  intros R Hm.
  destruct (run_same_vs_screen cat frames _ _ _ _ R Hm) as (m' & H' & E).
  exists m'. split; [exact H'|exact E].
Qed.

(** X6: the representative frame of every match of a scan is the image of
    a frame of the input that shows the VS marker, and that frame is
    earlier than the match's [vs_sec]. *)
Theorem representative_is_earlier_vs_frame (cat : Catalog)
    (frames : list Frame) (ms : list PotentialMatch) (m : PotentialMatch) :
  scan cat frames = Some ms ->
  In m ms ->
  exists sec cf,
    In (sec, cf) frames /\
    vs_clip_frame_img m = clip_frame_to_image cf /\
    vs_marker cat (vs_clip_frame_img m) /\
    sec < vs_sec m.
Proof.
  intros H Hm. unfold scan in H.
  destruct (run cat initial_state frames) as [st|] eqn:R; [|discriminate].
  simpl in H. injection H as <-.
  pose proof (run_provenance cat frames [] _ _ (initial_provenance cat) R)
    as (_ & Pm & _).
  rewrite Forall_forall in Pm. exact (Pm m Hm).
Qed.

(** X7: every match of a scan carries the lookup's answers for its own
    representative frame; in particular its keys are keys of the left and
    of the right roster. *)
Theorem matches_carry_lookup_answers (cat : Catalog) (frames : list Frame)
    (ms : list PotentialMatch) (m : PotentialMatch) :
  scan cat frames = Some ms ->
  In m ms ->
  classify (crop (vs_clip_frame_img m) CHAR_LEFT_IMAGE_BOX)
           (CHAR_LEFT_HASHES cat)
    = Some (left_hash_diff m, left_char_key m) /\
  classify (crop (vs_clip_frame_img m) CHAR_RIGHT_IMAGE_BOX)
           (CHAR_RIGHT_HASHES cat)
    = Some (right_hash_diff m, right_char_key m) /\
  In (left_char_key m) (map fst (CHAR_LEFT_HASHES cat)) /\
  In (right_char_key m) (map fst (CHAR_RIGHT_HASHES cat)).
Proof.
  intros H Hm. unfold scan in H.
  destruct (run cat initial_state frames) as [st|] eqn:R; [|discriminate].
  simpl in H. injection H as <-.
  pose proof (run_provenance cat frames [] _ _ (initial_provenance cat) R)
    as (_ & _ & Pc).
  rewrite Forall_forall in Pc. destruct (Pc m Hm) as [CL CR].
  split; [exact CL|]. split; [exact CR|]. split.
  - destruct (classify_attains _ _ _ _ CL) as (h & I & _).
    apply (in_map fst) in I. exact I.
  - destruct (classify_attains _ _ _ _ CR) as (h & I & _).
    apply (in_map fst) in I. exact I.
Qed.

(** X8: the scan never goes back: once a frame has been examined, every
    frame with an earlier timestamp is skipped for the rest of the scan,
    whatever it shows.  A frame out of order does not change the state. *)
Theorem earlier_frames_are_skipped (cat : Catalog) (st : ScanState) (sec : Q)
    (cf : ClipFrame) (st' : ScanState) (frames : list Frame)
    (st'' : ScanState) (sec2 : Q) (cf2 : ClipFrame) :
  examined st sec ->
  step cat st (sec, cf) = Some st' ->
  run cat st' frames = Some st'' ->
  sec2 < sec ->
  step cat st'' (sec2, cf2) = Some st''.
Proof.
  intros Ex S R L.
  rewrite (step_examined _ _ _ _ Ex) in S.
  apply examine_next_sec in S.
  apply run_next_sec_mono in R.
  apply step_skipped. lra.
Qed.

(** X9: every match takes at least two frames of the input, one that is
    buffered and one that closes the burst: a scan of n frames returns at
    most n/2 matches. *)
Theorem two_frames_per_match (cat : Catalog) (frames : list Frame)
    (ms : list PotentialMatch) :
  scan cat frames = Some ms ->
  (2 * List.length ms <= List.length frames)%nat.
Proof.
  intro H. unfold scan in H.
  destruct (run cat initial_state frames) as [st|] eqn:R; [|discriminate].
  simpl in H. injection H as <-.
  now apply (run_two_frames_per_match cat).
Qed.

(** X10: a stream in which no frame shows the VS marker gives the empty
    match list, whatever the rosters are (even empty ones: nothing is
    looked up). *)
Theorem no_vs_frames_no_matches (cat : Catalog) (frames : list Frame) :
  Forall (fun fr => ~ vs_marker cat (clip_frame_to_image (snd fr))) frames ->
  scan cat frames = Some [].
Proof.
  intro F.
  destruct (run_no_vs cat frames initial_state F eq_refl eq_refl)
    as (st & R & Em & _).
  unfold scan. rewrite R. simpl. now rewrite Em.
Qed.

End ScanExtras.

Lemma scenario_E_matches :
  @scan SynImaging syn_catalog scenario_E
  = Some [@set_round_start SynImaging 12 0 match_of_B; match_of_E].
Proof. vm_compute. reflexivity. Qed.

(** X3 on the two matches of [scenario_E]: VS times 5.75 and 30.5, the
    round start of the first at 12.0. *)
Lemma matches_chronological_witness :
  @scan SynImaging syn_catalog scenario_E
    = Some [@set_round_start SynImaging 12 0 match_of_B; match_of_E] /\
  (23 # 4) < 61 # 2 /\
  ROUND_START_MAX_OFFSET_SECS <= (61 # 2) - (23 # 4) /\
  (forall r, Some 12 = Some r -> r < 61 # 2).
Proof.
  split; [exact scenario_E_matches|].
  exact (@matches_chronological SynImaging syn_catalog scenario_E _ 0 1
           (@set_round_start SynImaging 12 0 match_of_B) match_of_E
           scenario_E_matches (Nat.lt_0_succ 0) eq_refl eq_refl).
Defined.

(** X5 from the end of Scenario B over the marker frames: the match stays
    at index 0 and only gains its round start. *)
Lemma recorded_matches_keep_their_place_witness :
  exists st' m',
    @run SynImaging syn_catalog state_after_B clause_frames = Some st' /\
    nth_error (potential_matches st') 0 = Some m' /\
    round_start_sec m' = Some 12 /\
    vs_sec m' = vs_sec match_of_B /\
    vs_clip_frame_img m' = vs_clip_frame_img match_of_B /\
    left_char_key m' = left_char_key match_of_B /\
    right_char_key m' = right_char_key match_of_B /\
    left_hash_diff m' = left_hash_diff match_of_B /\
    right_hash_diff m' = right_hash_diff match_of_B.
Proof.
  eexists. 
  assert (R : @run SynImaging syn_catalog state_after_B clause_frames
              = Some (@mkScanState SynImaging (105 # 4) (23 # 4) []
                        [@set_round_start SynImaging 12 0 match_of_B]))
    by (vm_compute; reflexivity).
  destruct (@recorded_matches_keep_their_place SynImaging syn_catalog
              state_after_B clause_frames _ 0 match_of_B R eq_refl)
    as (m' & H' & E).
  exists m'. split; [exact R|]. split; [exact H'|].
  split; [|exact E].
  simpl in H'. injection H' as <-. reflexivity.
Defined.

(** X6 on the second match of [scenario_E]: its representative frame is
    the VS frame of 30.25. *)
Lemma representative_is_earlier_vs_frame_witness :
  exists sec cf,
    In (sec, cf) scenario_E /\
    vs_clip_frame_img match_of_E = cf /\
    @vs_marker SynImaging syn_catalog (vs_clip_frame_img match_of_E) /\
    sec < vs_sec match_of_E.
Proof.
  exact (@representative_is_earlier_vs_frame SynImaging syn_catalog scenario_E
           _ match_of_E scenario_E_matches (or_intror (or_introl eq_refl))).
Defined.

(** X7 on the second match of [scenario_E]. *)
Lemma matches_carry_lookup_answers_witness :
  @classify SynImaging (syn_crop vs_c CHAR_LEFT_IMAGE_BOX)
            (CHAR_LEFT_HASHES syn_catalog)
    = Some (4%nat, "hyde-left"%string) /\
  @classify SynImaging (syn_crop vs_c CHAR_RIGHT_IMAGE_BOX)
            (CHAR_RIGHT_HASHES syn_catalog)
    = Some (5%nat, "seth-right"%string) /\
  In "hyde-left"%string (map fst (CHAR_LEFT_HASHES syn_catalog)) /\
  In "seth-right"%string (map fst (CHAR_RIGHT_HASHES syn_catalog)).
Proof.
  exact (@matches_carry_lookup_answers SynImaging syn_catalog scenario_E
           _ match_of_E scenario_E_matches (or_intror (or_introl eq_refl))).
Defined.

(** X8 on Scenario B: after the frame of 5.0 has been examined and the
    rest of the scenario has run, a frame of 4.0 is skipped. *)
Lemma earlier_frames_are_skipped_witness :
  @examined SynImaging initial_state 5 /\
  4 < 5 /\
  @step SynImaging syn_catalog state_after_B (4, clause_frame)
    = Some state_after_B.
Proof.
  assert (Ex : @examined SynImaging initial_state 5)
    by (vm_compute; discriminate).
  assert (S : @step SynImaging syn_catalog initial_state (5, vs_a)
              = Some (@vs_collection SynImaging initial_state 5 vs_a))
    by (vm_compute; reflexivity).
  assert (R : @run SynImaging syn_catalog
                (@vs_collection SynImaging initial_state 5 vs_a)
                [(21 # 4, vs_b); (11 # 2, vs_c); (23 # 4, plain); (6, plain)]
              = Some state_after_B)
    by (vm_compute; reflexivity).
  assert (L : 4 < 5) by reflexivity.
  split; [exact Ex|]. split; [exact L|].
  exact (@earlier_frames_are_skipped SynImaging syn_catalog initial_state 5
           vs_a _ _ _ 4 clause_frame Ex S R L).
Defined.

(** X9 on [scenario_E]: two matches from twelve frames. *)
Lemma two_frames_per_match_witness :
  (2 * 2 <= List.length scenario_E)%nat.
Proof.
  exact (@two_frames_per_match SynImaging syn_catalog scenario_E _
           scenario_E_matches).
Defined.

(** X10 with an empty left roster: gameplay and round-start frames alone
    give no match and no abort. *)
Lemma no_vs_frames_no_matches_witness :
  Forall (fun fr => ~ @vs_marker SynImaging syn_catalog_no_left (snd fr))
         scenario_no_vs /\
  @scan SynImaging syn_catalog_no_left scenario_no_vs = Some [].
Proof.
  assert (F : Forall (fun fr => ~ @vs_marker SynImaging syn_catalog_no_left
                                  (snd fr)) scenario_no_vs).
  { repeat constructor; vm_compute; lia. }
  split; [exact F|].
  exact (@no_vs_frames_no_matches SynImaging syn_catalog_no_left
           scenario_no_vs F).
Defined.

(** ** Properties of the roster loader *)

Lemma string_of_list_ascii_app (a b : list ascii) :
  string_of_list_ascii (a ++ b) =
  (string_of_list_ascii a ++ string_of_list_ascii b)%string.
Proof.
  induction a as [|c a IH]; simpl; [reflexivity|]. now rewrite IH.
Qed.

Lemma dict_set_keys {V : Type} (d : list (string * V)) (k : string) (v : V) :
  map fst (dict_set d k v) =
  if existsb (fun kv => String.eqb (fst kv) k) d
  then map fst d else map fst d ++ [k].
Proof.
  unfold dict_set. destruct (existsb _ d).
  - rewrite map_map. apply map_ext.
    intros [k0 v0]. simpl. destruct (String.eqb k0 k); reflexivity.
  - now rewrite map_app.
Qed.

Lemma dict_set_key_in {V : Type} (d : list (string * V)) (k k0 : string)
    (v : V) :
  In k (map fst (dict_set d k0 v)) -> In k (map fst d) \/ k = k0.
Proof.
  rewrite dict_set_keys. destruct (existsb _ d); [now left|].
  intro I. apply in_app_or in I. destruct I as [I|[<-|[]]]; tauto.
Qed.

(* A selected file name is its roster key followed by ".png". *)
Lemma selected_name_is_key_png (suffix p : string) :
  forallb (fun c => Ascii.eqb c dot) (list_ascii_of_string suffix) = false ->
  endswith p (suffix ++ ".png") = true ->
  p = (splitext_root p ++ ".png")%string /\
  endswith (splitext_root p) suffix = true.
Proof.
  intros G H.
  pose proof H as H'. apply endswith_spec in H'. destruct H' as [b E].
  rewrite list_ascii_of_string_app, app_assoc in E.
  assert (R : splitext_root p
              = string_of_list_ascii (b ++ list_ascii_of_string suffix)).
  { apply splitext_root_png; [exact E|].
    rewrite forallb_app, G. apply andb_false_r. }
  split.
  - rewrite R, <- (string_of_list_ascii_of_string ".png").
    rewrite <- string_of_list_ascii_app, <- E.
    now rewrite string_of_list_ascii_of_string.
  - rewrite R. apply endswith_spec. exists b.
    now rewrite list_ascii_of_string_of_list_ascii.
Qed.

Section LoaderExtras.

Context `{IM : Imaging}.

Lemma load_fold_keys (filename_suffix : string) (box : Box)
    (listing : list (string * Image)) :
  forall acc k,
    In k (map fst (fold_left (load_char_hash filename_suffix box)
                             listing acc)) ->
    In k (map fst acc) \/
    exists fn img,
      In (fn, img) listing /\
      endswith fn filename_suffix = true /\
      k = splitext_root fn.
Proof.
  induction listing as [|[fn img] listing IH]; intros acc k I; simpl in I.
  - now left.
  - apply IH in I. destruct I as [I|(fn' & img' & I & S & E)].
    + destruct (endswith fn filename_suffix) eqn:S; [|now left].
      apply dict_set_key_in in I. destruct I as [I|Ek]; [now left|].
      subst k. right. exists fn, img. split; [now left|]. now split.
    + right. exists fn', img'. split; [now right|]. now split.
Qed.

Lemma load_fold_filter (filename_suffix : string) (box : Box)
    (listing : list (string * Image)) :
  forall acc,
    fold_left (load_char_hash filename_suffix box) listing acc =
    fold_left (load_char_hash filename_suffix box)
              (filter (selected filename_suffix) listing) acc.
Proof.
  induction listing as [|[fn img] listing IH]; intro acc; simpl;
    [reflexivity|].
  unfold selected at 1. simpl fst.
  destruct (endswith fn filename_suffix) eqn:S.
  - simpl. rewrite S. apply IH.
  - apply IH.
Qed.

(** X12: files whose name does not end in the suffix followed by ".png"
    do not influence the roster: loading a listing and loading only its
    selected files give the same roster. *)
Theorem unselected_files_are_ignored (listing : list (string * Image))
    (suffix : string) :
  load_char_hashes listing suffix =
  load_char_hashes (filter (selected (suffix ++ ".png")) listing) suffix.
Proof.
  unfold load_char_hashes. apply load_fold_filter.
Qed.

(** X13: for the two suffixes the module uses and a directory with
    distinct file names, the roster holds exactly one entry per selected
    file: [(k, h)] is an entry if and only if the file [k ++ ".png"] is in
    the directory, its name ends in the suffix followed by ".png", and [h]
    is the hash of its image cropped to the box of that side. *)
Theorem roster_entries_are_the_selected_files
    (listing : list (string * Image)) (suffix k : string) (h : ImageHash) :
  suffix = "-left"%string \/ suffix = "-right"%string ->
  NoDup (map fst listing) ->
  (In (k, h) (load_char_hashes listing suffix) <->
   exists img,
     In ((k ++ ".png")%string, img) listing /\
     endswith (k ++ ".png") (suffix ++ ".png") = true /\
     h = dhash (crop img (if String.eqb suffix "-left"
                          then CHAR_LEFT_IMAGE_BOX
                          else CHAR_RIGHT_IMAGE_BOX))).
Proof.
  intros S N.
  assert (G : forallb (fun c => Ascii.eqb c dot)
                      (list_ascii_of_string suffix) = false)
    by (destruct S as [-> | ->]; reflexivity).
  rewrite (load_char_hashes_entries listing suffix G N).
  rewrite in_map_iff. split.
  - intros ([fn img] & E & I). apply filter_In in I. destruct I as [I Sel].
    unfold selected in Sel. simpl in Sel.
    unfold roster_entry in E. simpl in E. injection E as <- <-.
    destruct (selected_name_is_key_png suffix fn G Sel) as [Efn _].
    exists img. rewrite <- Efn. repeat split; assumption.
  - intros (img & I & Sel & ->).
    exists ((k ++ ".png")%string, img). split.
    + unfold roster_entry. simpl. f_equal.
      destruct (splitext_root_selected suffix _ G Sel) as (b & L & R).
      rewrite R.
      rewrite list_ascii_of_string_app in L. apply app_inv_tail in L.
      now rewrite <- L, string_of_list_ascii_of_string.
    + apply filter_In. split; [exact I|exact Sel].
Qed.

(** X14: every key of the left roster ends in "-left" and every key of
    the right roster in "-right", whatever the directory listing is; so no
    key belongs to both rosters. *)
Theorem left_and_right_keys_are_disjoint (data : DataDir) :
  (forall k, In k (map fst (CHAR_LEFT_HASHES (load_catalog data))) ->
             endswith k "-left" = true) /\
  (forall k, In k (map fst (CHAR_RIGHT_HASHES (load_catalog data))) ->
             endswith k "-right" = true) /\
  (forall k, In k (map fst (CHAR_LEFT_HASHES (load_catalog data))) ->
             ~ In k (map fst (CHAR_RIGHT_HASHES (load_catalog data)))).
Proof.
  assert (K : forall suffix k,
             forallb (fun c => Ascii.eqb c dot)
                     (list_ascii_of_string suffix) = false ->
             In k (map fst (load_char_hashes (chars data) suffix)) ->
             endswith k suffix = true).
  { intros suffix k G I. unfold load_char_hashes in I.
    apply load_fold_keys in I. destruct I as [[]|(fn & img & _ & Sel & ->)].
    now apply selected_name_is_key_png. }
  assert (L : forall k, In k (map fst (CHAR_LEFT_HASHES (load_catalog data)))
                        -> endswith k "-left" = true)
    by (intros k I; now apply K).
  assert (R : forall k, In k (map fst (CHAR_RIGHT_HASHES (load_catalog data)))
                        -> endswith k "-right" = true)
    by (intros k I; now apply K).
  split; [exact L|]. split; [exact R|].
  intros k Il Ir. apply L in Il. apply R in Ir.
  apply endswith_spec in Il, Ir.
  destruct Il as [b1 E1]. destruct Ir as [b2 E2].
  rewrite E1 in E2. apply (f_equal (@rev ascii)) in E2.
  rewrite !rev_app_distr in E2. simpl in E2. discriminate.
Qed.

End LoaderExtras.

(** ** Strings of labels *)

Lemma append_assoc (a b c : string) :
  ((a ++ b) ++ c = a ++ (b ++ c))%string.
Proof.
  induction a as [|x a IH]; simpl; [reflexivity|]. now rewrite IH.
Qed.

Lemma append_inv_head (a x y : string) :
  (a ++ x = a ++ y)%string -> x = y.
Proof.
  induction a as [|c a IH]; simpl; intro H; [exact H|].
  injection H as H. now apply IH.
Qed.

(* Two texts that agree up to a separator which their first parts do not
   contain have the same first part. *)
Lemma append_inj_sep (c : ascii) (a1 : string) :
  forall a2 r1 r2,
    string_forall (fun x => negb (Ascii.eqb x c)) a1 = true ->
    string_forall (fun x => negb (Ascii.eqb x c)) a2 = true ->
    (a1 ++ String c r1 = a2 ++ String c r2)%string ->
    a1 = a2 /\ r1 = r2.
Proof.
  induction a1 as [|x a1 IH]; intros [|y a2] r1 r2 N1 N2 H; simpl in *.
  - injection H as <-. now split.
  - injection H as <- _. apply andb_true_iff in N2. destruct N2 as [N2 _].
    rewrite Ascii.eqb_refl in N2. discriminate.
  - injection H as -> _. apply andb_true_iff in N1. destruct N1 as [N1 _].
    rewrite Ascii.eqb_refl in N1. discriminate.
  - injection H as -> H.
    apply andb_true_iff in N1, N2.
    destruct (IH a2 r1 r2 (proj2 N1) (proj2 N2) H) as [-> ->]. now split.
Qed.

Lemma append_inj_len (a1 : string) :
  forall a2 r1 r2,
    String.length a1 = String.length a2 ->
    (a1 ++ r1 = a2 ++ r2)%string ->
    a1 = a2 /\ r1 = r2.
Proof.
  induction a1 as [|x a1 IH]; intros [|y a2] r1 r2 L H; simpl in *;
    try discriminate.
  - now split.
  - injection H as -> H. injection L as L.
    destruct (IH a2 r1 r2 L H) as [-> ->]. now split.
Qed.

Lemma replace_colons_app (a b : string) :
  replace_colons (a ++ b) = (replace_colons a ++ replace_colons b)%string.
Proof.
  induction a as [|c a IH]; simpl; [reflexivity|]. now rewrite IH.
Qed.

Lemma string_forall_impl (p q : ascii -> bool) (s : string) :
  (forall c, p c = true -> q c = true) ->
  string_forall p s = true -> string_forall q s = true.
Proof.
  intro I. induction s as [|c s IH]; simpl; [reflexivity|].
  rewrite !andb_true_iff. intros [H1 H2]. split; [now apply I|now apply IH].
Qed.

Lemma string_forall_app (p : ascii -> bool) (a b : string) :
  string_forall p (a ++ b) = string_forall p a && string_forall p b.
Proof.
  induction a as [|c a IH]; simpl; [reflexivity|].
  now rewrite IH, andb_assoc.
Qed.

Lemma replace_colons_number (s : string) :
  string_forall number_char s = true -> replace_colons s = s.
Proof.
  induction s as [|c s IH]; simpl; [reflexivity|].
  rewrite andb_true_iff. intros [H1 H2]. rewrite (IH H2).
  destruct (Ascii.eqb c ":") eqn:E; [|reflexivity].
  apply Ascii.eqb_eq in E. subst c. discriminate.
Qed.

Lemma number_char_not (c x : ascii) :
  number_char c = false -> number_char x = true ->
  negb (Ascii.eqb x c) = true.
Proof.
  intros Hc Hx. destruct (Ascii.eqb x c) eqn:E; [|reflexivity].
  apply Ascii.eqb_eq in E. subst x. congruence.
Qed.

(** ** Decimal numbers *)

Lemma string_of_uint_digits (d : Decimal.uint) :
  string_forall number_char (NilEmpty.string_of_uint d) = true.
Proof. induction d; simpl; try reflexivity; exact IHd. Qed.

Lemma str_int_number (n : Z) : string_forall number_char (str_int n) = true.
Proof.
  unfold str_int.
  assert (U : forall d, string_forall number_char (NilZero.string_of_uint d)
                        = true).
  { intro d. destruct d; try reflexivity; apply string_of_uint_digits. }
  destruct (Z.to_int n) as [d|d]; simpl; [apply U|].
  now rewrite U.
Qed.

Lemma to_int_not_nil (n : Z) :
  Z.to_int n <> Decimal.Pos Decimal.Nil /\
  Z.to_int n <> Decimal.Neg Decimal.Nil.
Proof.
  pose proof (DecimalZ.to_of (Z.to_int n)) as H.
  rewrite DecimalZ.of_to in H.
  split; intro E; rewrite E in H; discriminate.
Qed.

Lemma str_int_inj (a b : Z) : str_int a = str_int b -> a = b.
Proof.
  unfold str_int. intro H.
  apply DecimalZ.to_int_inj.
  destruct (to_int_not_nil a) as [A1 A2].
  destruct (to_int_not_nil b) as [B1 B2].
  pose proof (NilZero.isi _ A1 A2) as Ia.
  pose proof (NilZero.isi _ B1 B2) as Ib.
  rewrite H in Ia. congruence.
Qed.

(** ** Two-digit fields *)

Lemma in_sixty (v : Z) : (0 <= v < 60)%Z -> In v sixty.
Proof.
  intro R. unfold sixty. apply in_map_iff.
  exists (Z.to_nat v). split; [lia|]. apply in_seq. lia.
Qed.

Lemma str_int2_length (v : Z) :
  (0 <= v < 60)%Z -> String.length (str_int2 v) = 2%nat.
Proof.
  intro R.
  assert (C : forallb (fun v => (String.length (str_int2 v) =? 2)%nat) sixty
              = true) by (vm_compute; reflexivity).
  rewrite forallb_forall in C.
  apply Nat.eqb_eq. apply C. now apply in_sixty.
Qed.

Lemma str_int2_inj (a b : Z) :
  (0 <= a < 60)%Z -> (0 <= b < 60)%Z -> str_int2 a = str_int2 b -> a = b.
Proof.
  intros Ra Rb H.
  assert (C : forallb (fun a =>
                forallb (fun b =>
                  implb (String.eqb (str_int2 a) (str_int2 b)) (a =? b)%Z)
                  sixty) sixty = true) by (vm_compute; reflexivity).
  rewrite forallb_forall in C. specialize (C a (in_sixty a Ra)).
  rewrite forallb_forall in C. specialize (C b (in_sixty b Rb)).
  rewrite H, String.eqb_refl in C. simpl in C. now apply Z.eqb_eq.
Qed.

Lemma str_int2_number (v : Z) :
  string_forall number_char (str_int2 v) = true.
Proof.
  unfold str_int2. destruct (_ && _)%bool; [|apply str_int_number].
  simpl. apply str_int_number.
Qed.

(** ** The label of a second of the first day *)

Lemma timedelta_str_first_day (n : Z) :
  first_day n ->
  timedelta_str n =
  Some (str_int (n / 60 / 60) ++ ":" ++ str_int2 ((n / 60) mod 60) ++ ":"
        ++ str_int2 (n mod 60))%string.
Proof.
  intro R. unfold first_day in R. unfold timedelta_str.
  rewrite (Z.div_small n 86400) by lia.
  rewrite (Z.mod_small n 86400) by lia.
  reflexivity.
Qed.

Lemma hms_unique (n1 n2 : Z) :
  (n1 / 60 / 60 = n2 / 60 / 60)%Z ->
  ((n1 / 60) mod 60 = (n2 / 60) mod 60)%Z ->
  (n1 mod 60 = n2 mod 60)%Z ->
  n1 = n2.
Proof.
  intros H M S.
  pose proof (Z.div_mod n1 60). pose proof (Z.div_mod n2 60).
  pose proof (Z.div_mod (n1 / 60) 60). pose proof (Z.div_mod (n2 / 60) 60).
  lia.
Qed.

(* A path that begins with the file-name form of a label tells the
   second of the label. *)
Lemma label_prefix_inj (n1 n2 : Z) (td1 td2 t1 t2 : string) :
  first_day n1 -> first_day n2 ->
  timedelta_str n1 = Some td1 -> timedelta_str n2 = Some td2 ->
  (replace_colons ("[" ++ td1 ++ "]") ++ t1 =
   replace_colons ("[" ++ td2 ++ "]") ++ t2)%string ->
  n1 = n2.
Proof.
  intros R1 R2 T1 T2 H.
  rewrite (timedelta_str_first_day n1 R1) in T1. injection T1 as <-.
  rewrite (timedelta_str_first_day n2 R2) in T2. injection T2 as <-.
  assert (Shape : forall n t,
    (replace_colons
       ("[" ++ (str_int (n / 60 / 60) ++ ":" ++ str_int2 ((n / 60) mod 60)
                ++ ":" ++ str_int2 (n mod 60)) ++ "]") ++ t
     = "[" ++ str_int (n / 60 / 60) ++ "."
       ++ str_int2 ((n / 60) mod 60) ++ "."
       ++ str_int2 (n mod 60) ++ "]" ++ t)%string).
  { intros n t.
    rewrite !replace_colons_app.
    rewrite (replace_colons_number _ (str_int_number _)).
    rewrite !(replace_colons_number _ (str_int2_number _)).
    simpl. repeat (rewrite append_assoc; simpl). reflexivity. }
  rewrite !Shape in H. clear Shape.
  apply (append_inv_head "[") in H.
  assert (Nd : forall s, string_forall number_char s = true ->
                string_forall (fun x => negb (Ascii.eqb x ".")) s = true).
  { intros s Hs. eapply string_forall_impl; [|exact Hs].
    intros c Hc. now apply number_char_not. }
  apply append_inj_sep in H;
    [|apply Nd, str_int_number|apply Nd, str_int_number].
  destruct H as [Eh H].
  apply append_inj_len in H;
    [|rewrite !str_int2_length; [reflexivity| |];
      apply Z.mod_pos_bound; lia].
  destruct H as [Em H]. injection H as H.
  apply append_inj_len in H;
    [|rewrite !str_int2_length; [reflexivity| |];
      apply Z.mod_pos_bound; lia].
  destruct H as [Es _].
  apply hms_unique.
  - now apply str_int_inj.
  - apply str_int2_inj; try (apply Z.mod_pos_bound; lia). exact Em.
  - apply str_int2_inj; try (apply Z.mod_pos_bound; lia). exact Es.
Qed.

(** ** Whole seconds *)

Lemma py_int_floor (x : Q) : 0 <= x -> py_int x = Qfloor x.
Proof.
  destruct x as [n d]. unfold py_int, Qfloor, Qle. simpl. intro H.
  apply Z.quot_div_nonneg; lia.
Qed.

Lemma py_int_inject_Z (z : Z) : py_int (inject_Z z) = z.
Proof. unfold py_int. simpl. apply Z.quot_1_r. Qed.

Lemma py_int_nonneg (x : Q) : 0 <= x -> (0 <= py_int x)%Z.
Proof.
  intro H. rewrite (py_int_floor x H).
  change 0%Z with (Qfloor 0). now apply Qfloor_resp_le.
Qed.

Lemma py_int_mono (x y : Q) : 0 <= x -> x <= y -> (py_int x <= py_int y)%Z.
Proof.
  intros Hx Hxy. rewrite !py_int_floor by lra. now apply Qfloor_resp_le.
Qed.

Lemma py_int_gap (x y : Q) :
  0 <= x -> x + 1 <= y -> (py_int x < py_int y)%Z.
Proof.
  intros Hx Hxy. rewrite !py_int_floor by lra.
  assert (L : inject_Z (Qfloor x + 1) <= y).
  { rewrite inject_Z_plus. pose proof (Qfloor_le x) as F.
    change (inject_Z 1) with 1.
    set (f := inject_Z (Qfloor x)) in *. lra. }
  apply Qfloor_resp_le in L. rewrite Qfloor_Z in L. lia.
Qed.

Lemma py_int_first_day (x : Q) :
  0 <= x -> x < 86400 -> first_day (py_int x).
Proof.
  intros H0 H1. unfold first_day. split; [now apply py_int_nonneg|].
  rewrite (py_int_floor x H0).
  pose proof (Qfloor_le x) as F.
  assert (L : inject_Z (Qfloor x) < inject_Z 86400).
  { change (inject_Z 86400) with 86400.
    set (f := inject_Z (Qfloor x)) in *. lra. }
  rewrite <- Zlt_Qlt in L. exact L.
Qed.

Lemma format_timestamp_first_day (x : Q) :
  first_day (py_int x) ->
  exists td,
    timedelta_str (py_int x) = Some td /\
    format_timestamp x = Some ("[" ++ td ++ "]")%string.
Proof.
  intro R. unfold format_timestamp.
  rewrite (timedelta_str_first_day _ R). eexists. split; reflexivity.
Qed.

(** ** Link times, labels and debug files of a scan *)

Section OutputFacts.

Context `{IM : Imaging}.

Variable capitalize : string -> string.

(* What the times of the matches of a scan satisfy. *)
Lemma scan_output_times (cat : Catalog) (frames : list Frame)
    (ms : list PotentialMatch) :
  scan cat frames = Some ms ->
  Forall round_start_in_window ms /\
  spaced (map vs_sec ms) /\
  Forall (fun m => 0 <= vs_sec m) ms /\
  Forall (fun m => forall r, round_start_sec m = Some r ->
                             vs_sec m + SEEK_SECS <= r) ms.
Proof.
  intro H. unfold scan in H.
  destruct (run cat initial_state frames) as [st|] eqn:R; [|discriminate].
  simpl in H. injection H as <-.
  pose proof (run_inv _ _ _ _ initial_inv R) as (_ & W & _).
  pose proof (run_chronology _ _ _ _ initial_inv initial_chronology R)
    as (_ & Sp & Hp & Hr & _).
  repeat split; assumption.
Qed.

(* The time [round_start_sec or vs_sec] of a match with sound times. *)
Lemma or_else_bounds (m : PotentialMatch) :
  round_start_in_window m ->
  0 <= vs_sec m ->
  (forall r, round_start_sec m = Some r -> vs_sec m + SEEK_SECS <= r) ->
  vs_sec m <= or_else (round_start_sec m) (vs_sec m) /\
  or_else (round_start_sec m) (vs_sec m)
    < vs_sec m + ROUND_START_MAX_OFFSET_SECS /\
  (forall r, round_start_sec m = Some r ->
             or_else (round_start_sec m) (vs_sec m) = r).
Proof.
  intros W P S. unfold round_start_in_window in W.
  destruct (round_start_sec m) as [r|] eqn:E; simpl.
  - specialize (S r eq_refl).
    assert (Z : Qeq_bool r 0 = false).
    { destruct (Qeq_bool r 0) eqn:Q; [|reflexivity].
      apply Qeq_bool_iff in Q. unfold SEEK_SECS in S. lra. }
    rewrite Z. split; [lra|]. split; [lra|].
    intros r' Er. now injection Er.
  - unfold ROUND_START_MAX_OFFSET_SECS. split; [lra|]. split; [lra|].
    discriminate.
Qed.

(** X15: in the output of a scan the link time of a match with a recorded
    round start is the whole seconds of that round start: the test
    [round_start_sec or vs_sec], which would discard a round start of 0,
    never does, because a recorded round start is positive.  Link times
    are never negative. *)
Theorem link_time_is_the_recorded_round_start (cat : Catalog)
    (frames : list Frame) (ms : list PotentialMatch) (m : PotentialMatch) :
  scan cat frames = Some ms ->
  In m ms ->
  (forall r, round_start_sec m = Some r -> 0 < r /\ match_sec m = py_int r) /\
  (round_start_sec m = None -> match_sec m = py_int (vs_sec m)) /\
  (0 <= match_sec m)%Z.
Proof.
  intros H Hm.
  destruct (scan_output_times _ _ _ H) as (W & _ & P & S).
  rewrite Forall_forall in W, P, S.
  destruct (or_else_bounds m (W m Hm) (P m Hm) (S m Hm)) as (B1 & _ & B3).
  pose proof (P m Hm) as P0.
  split; [|split].
  - intros r Er. split.
    + pose proof (S m Hm r Er). unfold SEEK_SECS in *. lra.
    + unfold match_sec. now rewrite (B3 r Er).
  - intro En. unfold match_sec. now rewrite En.
  - unfold match_sec. apply py_int_nonneg. lra.
Qed.

(** X16: the link times of the matches of a scan never decrease along the
    list, so the page, which lists the matches in reverse, runs from the
    latest link to the earliest. *)
Theorem link_times_never_decrease (cat : Catalog) (frames : list Frame)
    (ms : list PotentialMatch) (i j : nat) (m m' : PotentialMatch) :
  scan cat frames = Some ms ->
  (i < j)%nat ->
  nth_error ms i = Some m ->
  nth_error ms j = Some m' ->
  (match_sec m <= match_sec m')%Z.
Proof.
  intros H Lt Hi Hj.
  destruct (scan_output_times _ _ _ H) as (W & Sp & P & S).
  rewrite Forall_forall in W, P, S.
  pose proof (nth_error_In _ _ Hi) as Im.
  pose proof (nth_error_In _ _ Hj) as Im'.
  destruct (or_else_bounds m (W m Im) (P m Im) (S m Im)) as (A1 & A2 & _).
  destruct (or_else_bounds m' (W m' Im') (P m' Im') (S m' Im'))
    as (B1 & _ & _).
  assert (G : vs_sec m + ROUND_START_MAX_OFFSET_SECS + SEEK_SECS
              <= vs_sec m').
  { apply (spaced_nth _ Sp i j); [exact Lt| |]; now apply map_nth_error. }
  pose proof (P m Im) as P0.
  unfold match_sec. apply py_int_mono; unfold SEEK_SECS in *; lra.
Qed.

(** X17: within the first 24 hours [format_timestamp] always gives a
    label, and two times get the same label exactly when they lie in the
    same whole second. *)
Theorem labels_tell_seconds_apart (a b : Q) :
  0 <= a -> a < 86400 -> 0 <= b -> b < 86400 ->
  exists la lb,
    format_timestamp a = Some la /\
    format_timestamp b = Some lb /\
    (la = lb <-> py_int a = py_int b).
Proof.
  intros A0 A1 B0 B1.
  pose proof (py_int_first_day a A0 A1) as Ra.
  pose proof (py_int_first_day b B0 B1) as Rb.
  destruct (format_timestamp_first_day a Ra) as (ta & Ta & Fa).
  destruct (format_timestamp_first_day b Rb) as (tb & Tb & Fb).
  eexists. eexists. split; [exact Fa|]. split; [exact Fb|]. split.
  - intro E.
    apply (label_prefix_inj _ _ ta tb EmptyString EmptyString Ra Rb Ta Tb).
    now rewrite E.
  - intro E. rewrite E in Ta. congruence.
Qed.

Lemma timedelta_str_days (n : Z) :
  timedelta_str n = None <-> (MAX_DELTA_DAYS < Z.abs (n / 86400))%Z.
Proof.
  unfold timedelta_str.
  destruct (MAX_DELTA_DAYS <? Z.abs (n / 86400))%Z eqn:E.
  - apply Z.ltb_lt in E. tauto.
  - apply Z.ltb_ge in E. split; [discriminate|lia].
Qed.

Lemma split_first_hyphen (base rest : string) :
  string_forall (fun c => negb (Ascii.eqb c "-")) base = true ->
  split_first (base ++ String "-" rest) = base.
Proof.
  induction base as [|c base IH]; simpl; intro H; [reflexivity|].
  apply andb_true_iff in H. destruct H as [H1 H2].
  apply negb_true_iff in H1. rewrite H1. now rewrite IH.
Qed.

(** X19: the name a title shows for a roster key is the capitalized text
    before the first hyphen of the key: the keys "N-left" and "N-right" of
    one character show the same name when N has no hyphen, and whatever
    follows a hyphen inside a name is not shown. *)
Theorem char_name_is_the_text_before_the_first_hyphen (base rest : string) :
  string_forall (fun c => negb (Ascii.eqb c "-")) base = true ->
  char_name capitalize (base ++ "-" ++ rest) = capitalize base /\
  char_name capitalize (base ++ "-left") = capitalize base /\
  char_name capitalize (base ++ "-right") = capitalize base /\
  char_name capitalize base = capitalize base.
Proof.
  intro H. unfold char_name.
  split; [|split; [|split]].
  - change ("-" ++ rest)%string with (String "-" rest).
    now rewrite (split_first_hyphen base rest H).
  - now rewrite (split_first_hyphen base "left" H).
  - now rewrite (split_first_hyphen base "right" H).
  - f_equal. clear capitalize.
    induction base as [|c base IH]; simpl; [reflexivity|].
    simpl in H. apply andb_true_iff in H. destruct H as [H1 H2].
    apply negb_true_iff in H1. rewrite H1. now rewrite IH.
Qed.

(* Two paths under one directory that differ from the label on. *)
Lemma debug_path_label (dir mid ts1 ts2 r1 r2 : string) :
  replace_colons (dir ++ mid ++ ts1 ++ r1) =
  replace_colons (dir ++ mid ++ ts2 ++ r2) ->
  (replace_colons ts1 ++ replace_colons r1 =
   replace_colons ts2 ++ replace_colons r2)%string.
Proof.
  rewrite !replace_colons_app. intro H.
  apply append_inv_head in H. now apply append_inv_head in H.
Qed.

(** X20: within the first 24 hours the debug hooks never write two
    matches of one scan to the same file: for two different matches of
    the output, the frame file, the two character files and the
    round-start file of the one differ from those of the other. *)
Theorem debug_files_never_collide (cat : Catalog) (frames : list Frame)
    (ms : list PotentialMatch) (i j : nat) (m m' : PotentialMatch)
    (debug_dir : string) :
  scan cat frames = Some ms ->
  (i < j)%nat ->
  nth_error ms i = Some m ->
  nth_error ms j = Some m' ->
  vs_sec m' < 86400 ->
  exists f1 l1 r1 s1 f2 l2 r2 s2,
    potential_match_debug_paths debug_dir m = Some (f1, l1, r1) /\
    round_start_debug_path debug_dir m = Some s1 /\
    potential_match_debug_paths debug_dir m' = Some (f2, l2, r2) /\
    round_start_debug_path debug_dir m' = Some s2 /\
    f1 <> f2 /\ l1 <> l2 /\ r1 <> r2 /\ s1 <> s2.
Proof.
  intros H Lt Hi Hj Day.
  destruct (scan_output_times _ _ _ H) as (_ & Sp & P & _).
  rewrite Forall_forall in P.
  pose proof (P m (nth_error_In _ _ Hi)) as P1.
  pose proof (P m' (nth_error_In _ _ Hj)) as P2.
  assert (G : vs_sec m + ROUND_START_MAX_OFFSET_SECS + SEEK_SECS
              <= vs_sec m').
  { apply (spaced_nth _ Sp i j); [exact Lt| |]; now apply map_nth_error. }
  assert (Lt12 : (py_int (vs_sec m) < py_int (vs_sec m'))%Z).
  { apply py_int_gap; [exact P1|].
    unfold ROUND_START_MAX_OFFSET_SECS, SEEK_SECS in G. lra. }
  assert (R1 : first_day (py_int (vs_sec m))).
  { apply py_int_first_day; [exact P1|].
    unfold ROUND_START_MAX_OFFSET_SECS, SEEK_SECS in G. lra. }
  assert (R2 : first_day (py_int (vs_sec m')))
    by (apply py_int_first_day; assumption).
  destruct (format_timestamp_first_day _ R1) as (t1 & T1 & F1).
  destruct (format_timestamp_first_day _ R2) as (t2 & T2 & F2).
  unfold potential_match_debug_paths, round_start_debug_path.
  rewrite F1, F2.
  do 8 eexists.
  split; [reflexivity|]. split; [reflexivity|].
  split; [reflexivity|]. split; [reflexivity|].
  assert (No : forall mid r1 r2,
             replace_colons (debug_dir ++ mid ++ ("[" ++ t1 ++ "]") ++ r1) <>
             replace_colons (debug_dir ++ mid ++ ("[" ++ t2 ++ "]") ++ r2)).
  { intros mid r1 r2 E. apply debug_path_label in E.
    pose proof (label_prefix_inj _ _ _ _ _ _ R1 R2 T1 T2 E). lia. }
  repeat split.
  - apply (No "/"%string).
  - apply (No "/chars/"%string).
  - apply (No "/chars/"%string).
  - apply (No "/"%string).
Qed.

End OutputFacts.

(** X13 on the synthetic data directory: the file "hyde-left.png" gives
    the entry of key "hyde-left". *)
Lemma roster_entries_are_the_selected_files_witness :
  NoDup (map fst (chars syn_data)) /\
  In ("hyde-left"%string, bits 8)
     (@load_char_hashes SynImaging (chars syn_data) "-left").
Proof.
  split; [exact syn_data_names_nodup|].
  apply (proj2 (@roster_entries_are_the_selected_files SynImaging
                  (chars syn_data) "-left" "hyde-left" (bits 8)
                  (or_introl eq_refl) syn_data_names_nodup)).
  exists (icon 8). split.
  - simpl. tauto.
  - split; vm_compute; reflexivity.
Defined.

(** X15 on the first match of [scenario_E]: round start 12.0, link time
    12. *)
Lemma link_time_is_the_recorded_round_start_witness :
  (forall r,
      round_start_sec (@set_round_start SynImaging 12 0 match_of_B) = Some r ->
      0 < r /\
      @match_sec SynImaging (@set_round_start SynImaging 12 0 match_of_B)
        = py_int r) /\
  (round_start_sec (@set_round_start SynImaging 12 0 match_of_B) = None ->
   @match_sec SynImaging (@set_round_start SynImaging 12 0 match_of_B)
     = py_int (vs_sec (@set_round_start SynImaging 12 0 match_of_B))) /\
  (0 <= @match_sec SynImaging (@set_round_start SynImaging 12 0 match_of_B))%Z.
Proof.
  exact (@link_time_is_the_recorded_round_start SynImaging syn_catalog
           scenario_E _ (@set_round_start SynImaging 12 0 match_of_B)
           scenario_E_matches (or_introl eq_refl)).
Defined.

(** X16 on [scenario_E]: link times 12 and 30. *)
Lemma link_times_never_decrease_witness :
  @match_sec SynImaging (@set_round_start SynImaging 12 0 match_of_B) = 12%Z /\
  @match_sec SynImaging match_of_E = 30%Z /\
  (@match_sec SynImaging (@set_round_start SynImaging 12 0 match_of_B)
   <= @match_sec SynImaging match_of_E)%Z.
Proof.
  split; [reflexivity|]. split; [reflexivity|].
  exact (@link_times_never_decrease SynImaging syn_catalog scenario_E _ 0 1
           (@set_round_start SynImaging 12 0 match_of_B) match_of_E
           scenario_E_matches (Nat.lt_0_succ 0) eq_refl eq_refl).
Defined.

(** X17 on 5.75 and 5.25: both in second 5, both labelled "[0:00:05]". *)
Lemma labels_tell_seconds_apart_witness :
  format_timestamp (23 # 4) = Some "[0:00:05]"%string /\
  exists la lb,
    format_timestamp (23 # 4) = Some la /\
    format_timestamp (21 # 4) = Some lb /\
    (la = lb <-> py_int (23 # 4) = py_int (21 # 4)).
Proof.
  split; [vm_compute; reflexivity|].
  apply (labels_tell_seconds_apart (23 # 4) (21 # 4)).
  - vm_compute. discriminate.
  - vm_compute. reflexivity.
  - vm_compute. discriminate.
  - vm_compute. reflexivity.
Defined.

(** X19 on the keys of one character. *)
Lemma char_name_is_the_text_before_the_first_hyphen_witness :
  char_name ascii_capitalize "hyde-left" = "Hyde"%string /\
  char_name ascii_capitalize ("hyde" ++ "-" ++ "left") = ascii_capitalize "hyde"
  /\ char_name ascii_capitalize ("hyde" ++ "-left") = ascii_capitalize "hyde"
  /\ char_name ascii_capitalize ("hyde" ++ "-right") = ascii_capitalize "hyde"
  /\ char_name ascii_capitalize "hyde" = ascii_capitalize "hyde".
Proof.
  split; [vm_compute; reflexivity|].
  apply (char_name_is_the_text_before_the_first_hyphen ascii_capitalize
           "hyde" "left").
  vm_compute. reflexivity.
Defined.

(** X20 on the two matches of [scenario_E] and the directory "dbg". *)
Lemma debug_files_never_collide_witness :
  vs_sec match_of_E < 86400 /\
  exists f1 l1 r1 s1 f2 l2 r2 s2,
    @potential_match_debug_paths SynImaging "dbg"
      (@set_round_start SynImaging 12 0 match_of_B) = Some (f1, l1, r1) /\
    @round_start_debug_path SynImaging "dbg"
      (@set_round_start SynImaging 12 0 match_of_B) = Some s1 /\
    @potential_match_debug_paths SynImaging "dbg" match_of_E
      = Some (f2, l2, r2) /\
    @round_start_debug_path SynImaging "dbg" match_of_E = Some s2 /\
    f1 <> f2 /\ l1 <> l2 /\ r1 <> r2 /\ s1 <> s2.
Proof.
  assert (D : vs_sec match_of_E < 86400) by (vm_compute; reflexivity).
  split; [exact D|].
  exact (@debug_files_never_collide SynImaging syn_catalog scenario_E _ 0 1
           (@set_round_start SynImaging 12 0 match_of_B) match_of_E "dbg"
           scenario_E_matches (Nat.lt_0_succ 0) eq_refl eq_refl D).
Defined.

Lemma scenario_E_debug_paths :
  @potential_match_debug_paths SynImaging "dbg" match_of_E
  = Some ("dbg/[0.00.30].hyde-left.seth-right.png",
          "dbg/chars/[0.00.30]-left.png",
          "dbg/chars/[0.00.30]-right.png")%string.
Proof. vm_compute. reflexivity. Qed.

(** ** Recorded times and the matches file *)

Section Page.

Context `{IM : Imaging}.

Variable capitalize : string -> string.

Lemma times_from_mono (fs fs' : list Frame) (m : PotentialMatch) :
  incl fs fs' -> times_from fs m -> times_from fs' m.
Proof.
  intros Inc [V R].
  assert (I : incl (map fst fs) (map fst fs')) by now apply incl_map.
  split; [now apply I|]. intros r E. apply I. now apply R.
Qed.

Lemma step_times (cat : Catalog) (pre : list Frame) (st : ScanState)
    (fr : Frame) (st' : ScanState) :
  Forall (times_from pre) (potential_matches st) ->
  step cat st fr = Some st' ->
  Forall (times_from (pre ++ [fr])) (potential_matches st').
Proof.
  intros F S.
  assert (Inc : incl pre (pre ++ [fr])) by (apply incl_appl, incl_refl).
  assert (F' : Forall (times_from (pre ++ [fr])) (potential_matches st)).
  { eapply Forall_impl; [|exact F]. intro m. now apply times_from_mono. }
  destruct fr as [sec cf].
  assert (Here : In sec (map fst (pre ++ [(sec, cf)]))).
  { rewrite map_app. apply in_or_app. right. now left. }
  destruct (step_matches_cases _ _ _ _ _ S)
    as [(E & _)|[(_ & _ & _ & _ & ms & l & E & E')
                |(_ & _ & new & E' & Ev & En & _)]].
  - now rewrite E.
  - rewrite E in F'. rewrite E'.
    apply Forall_app in F'. destruct F' as [F1 F2].
    inversion F2 as [|? ? [Hv _] _]; subst.
    apply Forall_app. split; [exact F1|].
    constructor; [|constructor]. split; [exact Hv|].
    simpl. intros r Er. now injection Er as <-.
  - rewrite E'. apply Forall_app. split; [exact F'|].
    constructor; [|constructor]. split.
    + now rewrite Ev.
    + rewrite En. discriminate.
Qed.

Lemma run_times (cat : Catalog) (frames : list Frame) :
  forall (pre : list Frame) st st',
    Forall (times_from pre) (potential_matches st) ->
    run cat st frames = Some st' ->
    Forall (times_from (pre ++ frames)) (potential_matches st').
Proof.
  induction frames as [|fr frames IH]; intros pre st st' F H; cbn [run] in H.
  - injection H as <-. now rewrite app_nil_r.
  - destruct (step cat st fr) as [st1|] eqn:S; [|discriminate].
    replace (pre ++ fr :: frames) with ((pre ++ [fr]) ++ frames)
      by (now rewrite <- app_assoc).
    apply (IH _ st1 st'); [|exact H].
    eapply step_times; eassumption.
Qed.

(** X21: every time recorded in the output of a scan is the timestamp of
    a frame of the input: the [vs_sec] of each match, and its round start
    when it has one. *)
Theorem recorded_times_are_frame_timestamps (cat : Catalog)
    (frames : list Frame) (ms : list PotentialMatch) (m : PotentialMatch) :
  scan cat frames = Some ms ->
  In m ms ->
  In (vs_sec m) (map fst frames) /\
  (forall r, round_start_sec m = Some r -> In r (map fst frames)).
Proof.
  intros H Hm. unfold scan in H.
  destruct (run cat initial_state frames) as [st|] eqn:R; [|discriminate].
  simpl in H. injection H as <-.
  assert (F0 : Forall (times_from []) (potential_matches initial_state))
    by constructor.
  pose proof (run_times cat frames [] _ _ F0 R) as F.
  rewrite Forall_forall in F. exact (F m Hm).
Qed.

Lemma match_items_some (norm_url : string) (ms : list PotentialMatch) :
  Forall (fun m => match_item capitalize norm_url m <> None) ms ->
  exists body, match_items capitalize norm_url ms = Some body.
Proof.
  induction 1 as [|m ms Hm _ [body IH]]; simpl.
  - now exists EmptyString.
  - destruct (match_item capitalize norm_url m) as [item|];
      [|contradiction].
    rewrite IH. eauto.
Qed.

Lemma format_timestamp_in_range (n : Z) :
  (0 <= n < TIMEDELTA_END)%Z ->
  format_timestamp (inject_Z n) <> None.
Proof.
  intros [L U] E. unfold format_timestamp in E.
  rewrite py_int_inject_Z in E.
  destruct (timedelta_str n) eqn:T; [discriminate|].
  apply timedelta_str_days in T.
  assert (D : (0 <= n / 86400 < MAX_DELTA_DAYS + 1)%Z).
  { split; [apply Z.div_pos; lia|].
    apply Z.div_lt_upper_bound; [lia|exact U]. }
  lia.
Qed.

(** X22: when every frame timestamp is below the end of the range of
    [timedelta] (999999999 days and 24 hours), writing the matches file
    never raises: for the output of a scan and any URL the text of the
    file is produced. *)
Theorem matches_file_is_written (cat : Catalog) (frames : list Frame)
    (ms : list PotentialMatch) (norm_url : string) :
  Forall (fun fr => fst fr < inject_Z TIMEDELTA_END) frames ->
  scan cat frames = Some ms ->
  exists html, matches_html capitalize norm_url ms = Some html.
Proof.
  intros B H.
  assert (Ok : Forall (fun m => match_item capitalize norm_url m <> None)
                      (rev ms)).
  { apply Forall_forall. intros m Im. apply in_rev in Im.
    destruct (scan_output_times _ _ _ H) as (W & _ & P & S).
    rewrite Forall_forall in W, P, S.
    destruct (or_else_bounds m (W m Im) (P m Im) (S m Im)) as (B1 & _ & B3).
    pose proof (P m Im) as P0.
    assert (T : or_else (round_start_sec m) (vs_sec m)
                < inject_Z TIMEDELTA_END).
    { assert (Fr : forall t, In t (map fst frames) ->
                             t < inject_Z TIMEDELTA_END).
      { intros t It. apply in_map_iff in It. destruct It as (fr & <- & If).
        rewrite Forall_forall in B. now apply B. }
      assert (F0 : Forall (times_from []) (potential_matches initial_state))
        by constructor.
      unfold scan in H.
      destruct (run cat initial_state frames) as [st|] eqn:R; [|discriminate].
      simpl in H. injection H as <-.
      pose proof (run_times cat frames [] _ _ F0 R) as F.
      rewrite Forall_forall in F. destruct (F m Im) as [Tv Tr].
      destruct (round_start_sec m) as [r|] eqn:Er.
      - rewrite (B3 r eq_refl). now apply Fr, Tr.
      - simpl. now apply Fr. }
    assert (R : (0 <= match_sec m < TIMEDELTA_END)%Z).
    { unfold match_sec. split; [apply py_int_nonneg; lra|].
      rewrite py_int_floor by lra.
      pose proof (Qfloor_le (or_else (round_start_sec m) (vs_sec m))) as Fl.
      assert (L : inject_Z (Qfloor (or_else (round_start_sec m) (vs_sec m)))
                  < inject_Z TIMEDELTA_END) by lra.
      now rewrite <- Zlt_Qlt in L. }
    unfold match_item, format_title.
    destruct (format_timestamp (inject_Z (match_sec m))) eqn:E;
      [discriminate|].
    exfalso. exact (format_timestamp_in_range _ R E). }
  destruct (match_items_some norm_url _ Ok) as [body E].
  unfold matches_html. rewrite E. eauto.
Qed.

End Page.

(** X21 on the first match of [scenario_E]: 5.75 and 12.0 are timestamps
    of frames of the stream. *)
Lemma recorded_times_are_frame_timestamps_witness :
  In (vs_sec (@set_round_start SynImaging 12 0 match_of_B))
     (map fst scenario_E) /\
  (forall r,
      round_start_sec (@set_round_start SynImaging 12 0 match_of_B) = Some r ->
      In r (map fst scenario_E)).
Proof.
  exact (@recorded_times_are_frame_timestamps SynImaging syn_catalog
           scenario_E _ (@set_round_start SynImaging 12 0 match_of_B)
           scenario_E_matches (or_introl eq_refl)).
Defined.

Lemma scenario_E_in_range :
  Forall (fun fr : @Frame SynImaging => fst fr < inject_Z TIMEDELTA_END)
         scenario_E.
Proof. repeat constructor. Qed.

(** X22 on [scenario_E]: the page has the later match first. *)
Lemma matches_file_is_written_witness :
  @matches_html SynImaging ascii_capitalize "https://youtu.be/v?" 
    [@set_round_start SynImaging 12 0 match_of_B; match_of_E]
  = Some ("<ol reversed>" ++ newline
          ++ "<li><a href=https://youtu.be/v?#t=30>[0:00:30] Hyde vs Seth</a></li>"
          ++ newline
          ++ "<li><a href=https://youtu.be/v?#t=12>[0:00:12] Hyde vs Seth</a></li>"
          ++ newline ++ "</ol><br>")%string /\
  exists html,
    @matches_html SynImaging ascii_capitalize "https://youtu.be/v?"
      [@set_round_start SynImaging 12 0 match_of_B; match_of_E] = Some html.
Proof.
  split; [vm_compute; reflexivity|].
  exact (@matches_file_is_written SynImaging ascii_capitalize syn_catalog
           scenario_E _ "https://youtu.be/v?" scenario_E_in_range
           scenario_E_matches).
Defined.

(** * The scan with the debug hooks *)

Section DebugFacts.

Context `{IM : Imaging}.

Variable save_ok : string -> bool.
Variable debug_dir : option string.

Implicit Types (cat : Catalog) (st : ScanState) (sec : Q) (img : Image).


Lemma last_match_snoc (ms : list PotentialMatch) (m : PotentialMatch) :
  last_match (ms ++ [m]) = Returns m.
Proof. unfold last_match. now rewrite rev_unit. Qed.


(* A hook raises what formatting or saving raises. *)
Lemma run_round_start_debug_raises (dir : string) img (m : PotentialMatch)
    (e : Raised) :
  run_round_start_debug save_ok dir img m = Raises e ->
  e = OverflowError \/ e = SaveError.
Proof.
  unfold run_round_start_debug.
  destruct (round_start_debug_path dir m) as [p|]; simpl.
  - unfold save. destruct (save_ok p); [discriminate|].
    intro H. injection H as <-. now right.
  - intro H. injection H as <-. now left.
Qed.

Lemma run_potential_match_debug_raises (dir : string) (m : PotentialMatch)
    (e : Raised) :
  run_potential_match_debug save_ok dir m = Raises e ->
  e = OverflowError \/ e = SaveError.
Proof.
  unfold run_potential_match_debug.
  destruct (potential_match_debug_paths dir m) as [[[p1 p2] p3]|]; simpl.
  - unfold save.
    destruct (save_ok p1); simpl;
      [|intro H; injection H as <-; now right].
    destruct (save_ok p2); simpl;
      [|intro H; injection H as <-; now right].
    destruct (save_ok p3); [discriminate|].
    intro H. injection H as <-. now right.
  - intro H. injection H as <-. now left.
Qed.



(* The call of a hook on the last match of a non-empty list. *)
Lemma hook_call_outcome (hook : string -> PotentialMatch -> Outcome unit)
    (ms : list PotentialMatch) (m : PotentialMatch) :
  (forall dir e, hook dir m = Raises e -> e = OverflowError \/ e = SaveError) ->
  if_debug debug_dir
    (fun dir => bind (last_match (ms ++ [m])) (fun m0 => hook dir m0))
  = Returns tt \/
  if_debug debug_dir
    (fun dir => bind (last_match (ms ++ [m])) (fun m0 => hook dir m0))
  = Raises OverflowError \/
  if_debug debug_dir
    (fun dir => bind (last_match (ms ++ [m])) (fun m0 => hook dir m0))
  = Raises SaveError.
Proof.
  intro H. unfold if_debug.
  destruct debug_dir as [[|c dir]|]; try (now left).
  rewrite last_match_snoc. simpl.
  destruct (hook (String c dir) m) as [[]|e] eqn:E; [now left|].
  destruct (H _ _ E) as [-> | ->]; [right; now left|right; now right].
Qed.


(* The matches after an examined frame, when the frame closes a burst or
   records a round start. *)
Lemma round_start_check_last cat st sec img :
  round_start_applies st sec ->
  clause_marker cat img ->
  exists ms m,
    potential_matches st = ms ++ [m] /\
    potential_matches (round_start_check cat st sec img) =
      ms ++ [set_round_start sec (clause_img_hash_diff cat img) m].
Proof.
  intros [Ne _] C.
  destruct (nonempty_snoc _ Ne) as (ms & m & E).
  exists ms, m. split; [exact E|].
  rewrite (round_start_check_hit _ _ _ _ C). simpl.
  now rewrite E, update_last_snoc.
Qed.

Lemma burst_closure_last cat st sec st' :
  burst_closure cat st sec = Some st' ->
  exists m,
    potential_matches st' = potential_matches st ++ [m] /\ vs_sec m = sec.
Proof.
  intro C.
  destruct (burst_closure_spec _ _ _ _ C)
    as (v & ld & lk & rd & rk & _ & _ & _ & ->).
  eexists. split; reflexivity.
Qed.

(* The loop with the hooks against the loop without them: it raises
   IndexError where that one does, and otherwise returns the same state
   unless a hook raises. *)
Lemma examine_debug_cases cat st sec img :
  match examine cat st sec img with
  | None => examine_debug save_ok debug_dir cat st sec img = Raises IndexError
  | Some st' =>
      examine_debug save_ok debug_dir cat st sec img = Returns st' \/
      examine_debug save_ok debug_dir cat st sec img = Raises OverflowError \/
      examine_debug save_ok debug_dir cat st sec img = Raises SaveError
  end.
Proof.
  unfold examine, examine_debug.
  destruct (select_branch cat st sec img) eqn:B.
  - destruct (_ <? _)%nat eqn:D; [|now left].
    apply select_round_start in B. apply Nat.ltb_lt in D.
    destruct (round_start_check_last cat st sec img B D)
      as (ms & m & _ & ->).
    destruct (hook_call_outcome
                (fun dir m0 => run_round_start_debug save_ok dir img m0)
                ms (set_round_start sec (clause_img_hash_diff cat img) m))
      as [E|[E|E]];
      try (intros dir e; apply run_round_start_debug_raises);
      rewrite E; simpl; tauto.
  - now left.
  - destruct (burst_closure cat st sec) as [st'|] eqn:C; [|reflexivity].
    simpl. destruct (burst_closure_last _ _ _ _ C) as (m & -> & _).
    destruct (hook_call_outcome
                (fun dir m0 => run_potential_match_debug save_ok dir m0)
                (potential_matches st) m)
      as [E|[E|E]];
      try (intros dir e; apply run_potential_match_debug_raises);
      rewrite E; simpl; tauto.
  - now left.
Qed.

Lemma step_debug_cases cat st (fr : Frame) :
  match step cat st fr with
  | None => step_debug save_ok debug_dir cat st fr = Raises IndexError
  | Some st' =>
      step_debug save_ok debug_dir cat st fr = Returns st' \/
      step_debug save_ok debug_dir cat st fr = Raises OverflowError \/
      step_debug save_ok debug_dir cat st fr = Raises SaveError
  end.
Proof.
  destruct fr as [sec cf]. unfold step, step_debug.
  destruct (Qltb sec (next_sec st)); [now left|].
  apply examine_debug_cases.
Qed.


Lemma step_debug_returns cat st (fr : Frame) st' :
  step_debug save_ok debug_dir cat st fr = Returns st' ->
  step cat st fr = Some st'.
Proof.
  intro E. pose proof (step_debug_cases cat st fr) as H.
  destruct (step cat st fr) as [st1|].
  - rewrite E in H. destruct H as [H|[H|H]]; congruence.
  - congruence.
Qed.

Lemma run_debug_returns cat (frames : list Frame) :
  forall st st',
    run_debug save_ok debug_dir cat st frames = Returns st' ->
    run cat st frames = Some st'.
Proof.
  induction frames as [|fr frames IH]; intros st st' H; cbn [run_debug run] in *.
  - now injection H as <-.
  - destruct (step_debug save_ok debug_dir cat st fr) as [st1|e] eqn:S;
      [|discriminate].
    rewrite (step_debug_returns _ _ _ _ S). simpl in H. now apply IH.
Qed.







End DebugFacts.



(* With the debug directory "d:bg" the hooks save under "d.bg", which does
   not exist: the first burst that closes ends the scan, with both rosters
   in place. *)
Lemma scan_raises_in_a_hook :
  @scan_debug SynImaging (only_under "d:bg") (Some "d:bg"%string)
    syn_catalog scenario_B
  = Raises SaveError.
Proof. vm_compute. reflexivity. Qed.

(** * The window of the round-start check in binary64 *)

Section Binary64Facts.

Context `{IM : Imaging}.

Implicit Types (cat : Catalog) (st : Binary64.ScanState)
  (sec : PrimFloat.float) (img : Image).






End Binary64Facts.




(** C10 fails on the second clip.  The VS screen is closed on frame 384
    ([vs_sec] = [last_vs_sec] = the double 12.8) and the marker on frame
    416 records the round start 13.87 and moves [next_sec] to
    [last_vs_sec] + 20, which is computed as the double 32.8.  Frame 984
    has that very time, so it is examined; its offset from [last_vs_sec]
    is computed as 19.999999999999996, inside the window.  It shows the
    marker, and the round start of the same match is overwritten with the
    time of frame 984; no match was appended in between. *)
Theorem round_start_overwritten_at_window_end :
  exists st3 st4,
    @Binary64.run SynImaging syn_catalog Binary64.initial_state
      Binary64.overwrite_prefix = Some st3 /\
    Binary64.potential_matches st3
      = [Binary64.set_round_start (Binary64.frame_time 416 30) 0
           Binary64.overwrite_match] /\
    Binary64.next_sec st3
      = PrimFloat.add (Binary64.last_vs_sec st3)
          Binary64.ROUND_START_MAX_OFFSET_SECS /\
    Binary64.examined st3 (Binary64.frame_time 984 30) /\
    Binary64.in_window st3 (Binary64.frame_time 984 30) /\
    @Binary64.step SynImaging syn_catalog st3 Binary64.overwrite_frame
      = Some st4 /\
    Binary64.potential_matches st4
      = [Binary64.set_round_start (Binary64.frame_time 984 30) 0
           Binary64.overwrite_match] /\
    PrimFloat.ltb (Binary64.frame_time 416 30) (Binary64.frame_time 984 30)
      = true.
Proof.
  eexists. eexists.
  split; [vm_compute; reflexivity|].
  split; [vm_compute; reflexivity|].
  split; [vm_compute; reflexivity|].
  split; [vm_compute; reflexivity|].
  split; [vm_compute; reflexivity|].
  split; [vm_compute; reflexivity|].
  split; vm_compute; reflexivity.
Qed.
